(** * Inventory adjustment allocation (app.py)

    A shallow embedding of the processing logic of [app.py]: the loop over the
    adjustment requests, the PRD classification of inventory lots, the
    "smallest first" greedy allocation with its 1e-6 tolerance, and the final
    presentation sort of the result rows.

    A number of the program (a target, an on-hand quantity, the remaining
    target) is a Python [int] or [float] or a numpy [int64] or [float64],
    according to the dtypes pandas gave the columns.  Its value is a
    rational, and the records below hold values as [Q]: an integer for an
    int64 column, the value of the binary64 number for a float64 column.
    The operations of the allocation loop whose result depends on the kind
    of number and on rounding are kept apart, as an interface [Arithmetic],
    with the arithmetic of the program's numbers as the instance
    [python_arith].  An item identifier is held as a string: the program
    compares identifiers for equality and orders them.  [fillna(0)] has
    removed NaN from both numeric columns when the loop starts, and the
    input quantities are finite. *)

From Stdlib Require Import QArith Qabs Qminmax Lqa Lia List String Ascii.
From Stdlib Require Import SpecFloat.
From Stdlib Require Import Permutation Sorted OrderedTypeEx.
From stdpp Require Import gmap strings sorting.
Import ListNotations.

Open Scope string_scope.
Open Scope list_scope.
Open Scope Q_scope.

(** ** Data model *)

(** One row of [adjustment.csv] after loading: columns ['Item Number'] and
    ['Adjustment']. *)
Record AdjustmentRequest := mkAdj {
  adj_item_number : string;
  adj_adjustment : Q
}.

(** One row of [inv_obs.csv] after loading: columns ['Item number'],
    ['Location'] ([None] is pandas' missing value, which is what a blank
    field loads as), ['Batch number'] and ['Sum of Physical inventory']. *)
Record InventoryLot := mkLot {
  inv_item_number : string;
  inv_location : option string;
  inv_batch_number : option string;
  inv_quantity : Q
}.

(** One dictionary appended to [results]. *)
Record ResultRow := mkRow {
  res_item_number : string;
  res_location : option string;
  res_batch_number : option string;
  res_original_quantity : Q;
  res_indicator : nat;
  res_allocated_quantity : Q
}.

(** ** Classification: [is_prd] *)

(** [str.upper] on the characters that matter for the test: the letters
    [a]..[z] go to [A]..[Z], every other byte is kept.  No character outside
    ASCII upper-cases to [P], [R] or [D]. *)
Definition upper_ascii (c : ascii) : ascii :=
  let n := nat_of_ascii c in
  if ((97 <=? n)%nat && (n <=? 122)%nat)%bool then ascii_of_nat (n - 32) else c.

Fixpoint upper (s : string) : string :=
  match s with
  | EmptyString => EmptyString
  | String c s' => String (upper_ascii c) (upper s')
  end.

(** [needle in hay] for Python strings. *)
Fixpoint str_in (needle hay : string) : bool :=
  (String.prefix needle hay ||
   match hay with
   | EmptyString => false
   | String _ hay' => str_in needle hay'
   end)%bool.

Definition is_prd (loc : option string) : bool :=
  match loc with
  | None => false
  | Some s => str_in "PRD" (upper s)
  end.

(** ** The numbers of the allocation loop *)

(** The value of the literal [0.000001]: the binary64 number nearest to
    1/1000000, which is 4722366482869645 / 2^72. *)
Definition EPS : Q := 4722366482869645 # 4722366482869645213696.

(** What the allocation loop does with numbers.  [num] is what the variable
    [remaining_target] holds; the quantities of the lots come from the
    inventory table as values.

    - [start t] is [remaining_target = target_adj];
    - [exhausted r] is the test [remaining_target <= 0.000001];
    - [fits qty r] is the test [qty <= remaining_target + 0.000001];
    - [minus r qty] is [remaining_target -= qty];
    - [zero] is [remaining_target = 0];
    - [value r] is the number stored by [allocated = remaining_target].

    The three laws hold of every kind of number the program computes with:
    the integer 0 is at most the tolerance, so is a target that is not
    positive, and a remaining target above the tolerance is not negative. *)
Class Arithmetic := {
  num : Type;
  start : Q -> num;
  exhausted : num -> bool;
  fits : Q -> num -> bool;
  minus : num -> Q -> num;
  zero : num;
  value : num -> Q;
  exhausted_zero : exhausted zero = true;
  exhausted_start : forall t, t <= 0 -> exhausted (start t) = true;
  value_not_negative : forall r, exhausted r = false -> 0 <= value r
}.

(** ** The numbers of pandas rows

    [iterrows] hands out each row as a Series of the common dtype of the
    columns.  The rows of an inventory group hold the boolean column
    ['is_prd'] the program adds, so they are object rows and the quantity
    [qty] is a Python number: an [int] for a column of dtype int64, a [float]
    for a column of dtype float64.  The rows of the adjustment table are
    object rows when one of its columns is text, and the target is a Python
    [int] or [float]; when all its columns are numeric the rows are numpy
    rows and the target is a [numpy.int64], or a [numpy.float64] if one of
    the columns is float64. *)
Inductive scalar :=
| PythonInt
| PythonFloat
| NumpyInt64
| NumpyFloat64.

(** binary64: 53 bits of precision, exponents below 1024. *)
Definition f64_add : spec_float -> spec_float -> spec_float := SFadd 53 1024.

Definition f64_sub : spec_float -> spec_float -> spec_float := SFsub 53 1024.

(** [float(z)] for an integer: the nearest binary64 number, ties to even. *)
Definition Z2F (z : Z) : spec_float := binary_normalize 53 1024 z 0 false.

(** The binary64 number of a value [n / 2^k]; on the value of a binary64
    number this is that number, on an integer it is [Z2F]. *)
Definition Q2F (q : Q) : spec_float :=
  binary_normalize 53 1024 (Qnum q) (- Z.log2 (Zpos (Qden q))) false.

(** The value of a finite binary64 number ([0] stands in for the others). *)
Definition F2Q (f : spec_float) : Q :=
  match f with
  | S754_finite s m e =>
      let n := if s then Zneg m else Zpos m in
      match e with
      | Z0 => n # 1
      | Zpos p => (n * Zpos (Pos.pow 2 p)) # 1
      | Zneg p => n # Pos.pow 2 p
      end
  | _ => 0
  end.

(** The float [0.000001]. *)
Definition EPS64 : spec_float := S754_finite false 4722366482869645 (-72).

(** [q <= f] for a Python number of value [q] and a Python float [f]: Python
    compares an int or a float with a float by value, NaN compares false. *)
Definition Qle_F (q : Q) (f : spec_float) : bool :=
  match f with
  | S754_nan => false
  | S754_infinity s => negb s
  | _ => Qle_bool q (F2Q f)
  end.

(** The result of int64 arithmetic: the integer modulo 2^64, in
    [-2^63, 2^63). *)
Definition wrap64 (z : Z) : Z :=
  ((z + 9223372036854775808) mod 18446744073709551616 - 9223372036854775808)%Z.

(** What [remaining_target] holds. *)
Inductive pynum :=
| PyInt (z : Z)
| PyFloat (f : spec_float)
| NpInt (z : Z)
| NpFloat (f : spec_float).

(** The float an arithmetic operation with a float converts the number to. *)
Definition py_float (r : pynum) : spec_float :=
  match r with
  | PyInt z | NpInt z => Z2F z
  | PyFloat f | NpFloat f => f
  end.

(** [target_adj], as the kind of number the adjustment rows hold. *)
Definition py_start (adj : scalar) (t : Q) : pynum :=
  match adj with
  | PythonInt => PyInt (Qnum t)
  | PythonFloat => PyFloat (Q2F t)
  | NumpyInt64 => NpInt (Qnum t)
  | NumpyFloat64 => NpFloat (Q2F t)
  end.

(** [remaining_target <= 0.000001]; an integer is at most 0.000001 when it
    is at most 0. *)
Definition py_exhausted (r : pynum) : bool :=
  match r with
  | PyInt z | NpInt z => (z <=? 0)%Z
  | PyFloat f | NpFloat f => SFleb f EPS64
  end.

(** [qty <= remaining_target + 0.000001].  The sum is a float sum.  Against
    a Python float Python compares [qty] by value; against a
    [numpy.float64] numpy first converts [qty] to binary64. *)
Definition py_fits (qty : Q) (r : pynum) : bool :=
  let sum := f64_add (py_float r) EPS64 in
  match r with
  | PyInt _ | PyFloat _ => Qle_F qty sum
  | NpInt _ | NpFloat _ => SFleb (Q2F qty) sum
  end.

(** [remaining_target -= qty]: exact on two Python ints, modulo 2^64 on a
    [numpy.int64] and an int ([inv_int] says that the quantity column is
    int64), a float subtraction otherwise. *)
Definition py_minus (inv_int : bool) (r : pynum) (qty : Q) : pynum :=
  match r with
  | PyInt z =>
      if inv_int then PyInt (z - Qnum qty)
      else PyFloat (f64_sub (Z2F z) (Q2F qty))
  | PyFloat f => PyFloat (f64_sub f (Q2F qty))
  | NpInt z =>
      if inv_int then NpInt (wrap64 (z - Qnum qty))
      else NpFloat (f64_sub (Z2F z) (Q2F qty))
  | NpFloat f => NpFloat (f64_sub f (Q2F qty))
  end.

Definition py_value (r : pynum) : Q :=
  match r with
  | PyInt z | NpInt z => z # 1
  | PyFloat f | NpFloat f => F2Q f
  end.

(** [remaining_target] is NaN. *)
Definition py_nan (r : pynum) : Prop :=
  r = PyFloat S754_nan \/ r = NpFloat S754_nan.

(** ** The greedy allocation of one item *)

(** The [if / elif / else] of the allocation loop: from the remaining target
    and the lot quantity to (indicator, allocated, new remaining target). *)
Definition decide_lot `{Arithmetic} (remaining_target : num) (qty : Q)
  : nat * Q * num :=
  if exhausted remaining_target then (0%nat, 0, remaining_target)
  else if fits qty remaining_target then
         (1%nat, qty, minus remaining_target qty)
  else (2%nat, value remaining_target, zero).

(** The dictionary built from a lot and its decision.  The program writes
    [allocated if indicator != 0 else 0]. *)
Definition result_of (inv_row : InventoryLot) (indicator : nat) (allocated : Q)
  : ResultRow :=
  mkRow (inv_item_number inv_row) (inv_location inv_row)
        (inv_batch_number inv_row) (inv_quantity inv_row) indicator
        (if (indicator =? 0)%nat then 0 else allocated).

(** One iteration of [for idx, inv_row in non_prd_rows.iterrows()]; the state
    is the pair of [remaining_target] and the shared [results] list. *)
Definition allocate_row `{Arithmetic} (st : num * list ResultRow)
    (inv_row : InventoryLot) : num * list ResultRow :=
  let '(remaining_target, results) := st in
  let '(indicator, allocated, remaining_target') :=
    decide_lot remaining_target (inv_quantity inv_row) in
  (remaining_target', results ++ [result_of inv_row indicator allocated]).

(** One iteration of [for idx, inv_row in prd_rows.iterrows()]. *)
Definition emit_prd (results : list ResultRow) (inv_row : InventoryLot)
  : list ResultRow :=
  results ++ [mkRow (inv_item_number inv_row) (inv_location inv_row)
                    (inv_batch_number inv_row) (inv_quantity inv_row) 0%nat 0].

(** ** The single-column sort of the eligible lots

    [non_prd_rows.sort_values(by='Sum of Physical inventory', ascending=True)]
    runs pandas' default [kind='quicksort'].  The library promises the rows
    back in ascending order of the column; it promises nothing about the
    relative order of rows with equal values (only [mergesort] and [stable]
    do).  The sort is therefore an interface: any implementation that returns
    an ascending rearrangement of its input. *)
Definition qty_le (a b : InventoryLot) : Prop :=
  inv_quantity a <= inv_quantity b.

Class SortValues := {
  sort_values : list InventoryLot -> list InventoryLot;
  sort_values_perm : forall rows, Permutation rows (sort_values rows);
  sort_values_sorted : forall rows, Sorted qty_le (sort_values rows)
}.

(** ** The loop over the adjustment requests *)

(** [inv_grouped.get_group(item)] guarded by [item in inv_grouped.groups]:
    the rows of the item in file order, [None] when there is none. *)
Definition get_group (df_inv : list InventoryLot) (item : string)
  : option (list InventoryLot) :=
  match List.filter (fun r => String.eqb (inv_item_number r) item) df_inv with
  | [] => None
  | item_inv => Some item_inv
  end.

Definition prd_rows_of (item_inv : list InventoryLot) : list InventoryLot :=
  List.filter (fun r => is_prd (inv_location r)) item_inv.

Definition non_prd_rows_of (item_inv : list InventoryLot) : list InventoryLot :=
  List.filter (fun r => negb (is_prd (inv_location r))) item_inv.

(** The body of [for index, row in df_adj.iterrows()]; the state is the pair
    of [results] and [processed_items]. *)
Definition process_request `{Arithmetic} `{SortValues}
    (df_inv : list InventoryLot)
    (st : list ResultRow * gset string) (row : AdjustmentRequest)
  : list ResultRow * gset string :=
  let '(results, processed_items) := st in
  let item := adj_item_number row in
  let target_adj := adj_adjustment row in
  if bool_decide (item ∈ processed_items) then st
  else
    let processed_items := {[ item ]} ∪ processed_items in
    match get_group df_inv item with
    | None => (results, processed_items)
    | Some item_inv =>
        let prd_rows := prd_rows_of item_inv in
        let non_prd_rows := sort_values (non_prd_rows_of item_inv) in
        let '(_, results) :=
          fold_left allocate_row non_prd_rows (start target_adj, results) in
        (fold_left emit_prd prd_rows results, processed_items)
    end.

Definition collect `{Arithmetic} `{SortValues} (df_adj : list AdjustmentRequest)
    (df_inv : list InventoryLot) : list ResultRow * gset string :=
  fold_left (process_request df_inv) df_adj ([], ∅).

(** ** The presentation sort

    [df_result.sort_values(by=['Item number', 'Indicator', 'Original
    Quantity'], ascending=[True, False, True])].  With several columns pandas
    does not use [kind]: it builds the order with a lexicographic indirect
    sort of the column codes, which is a stable sort.  It is modelled by a
    stable insertion sort on the lexicographic key. *)
Definition result_leb (a b : ResultRow) : bool :=
  match String.compare (res_item_number a) (res_item_number b) with
  | Lt => true
  | Gt => false
  | Eq =>
      match Nat.compare (res_indicator b) (res_indicator a) with
      | Lt => true
      | Gt => false
      | Eq => Qle_bool (res_original_quantity a) (res_original_quantity b)
      end
  end.

Fixpoint insert_result (x : ResultRow) (l : list ResultRow) : list ResultRow :=
  match l with
  | [] => [x]
  | y :: l' => if result_leb x y then x :: l else y :: insert_result x l'
  end.

Definition sort_result (results : list ResultRow) : list ResultRow :=
  fold_right insert_result [] results.

(** ** The run

    [pd.DataFrame(results)] of an empty list has no columns, so the sort
    raises [KeyError]; the [except Exception] handler reports it and no
    result is shown. *)
Inductive Outcome :=
| Result (df_result : list ResultRow)
| ErrorOccurred.

Definition run `{Arithmetic} `{SortValues} (df_adj : list AdjustmentRequest)
    (df_inv : list InventoryLot) : Outcome :=
  match fst (collect df_adj df_inv) with
  | [] => ErrorOccurred
  | results => Result (sort_result results)
  end.

(** * Definitions used to state the properties *)

(** An insertion sort parameterised by the comparison that decides whether
    the row being inserted goes in front of the row it meets.  With [<=] a
    row stays in front of the equal rows that followed it in the input. *)
Fixpoint insert_lot (goes_before : Q -> Q -> bool) (x : InventoryLot)
    (l : list InventoryLot) : list InventoryLot :=
  match l with
  | [] => [x]
  | y :: l' =>
      if goes_before (inv_quantity x) (inv_quantity y) then x :: l
      else y :: insert_lot goes_before x l'
  end.

Definition insertion_sort (goes_before : Q -> Q -> bool)
    (rows : list InventoryLot) : list InventoryLot :=
  fold_right (insert_lot goes_before) [] rows.

(** A result row with the given indicator and allocated quantity. *)
Definition row_for (lot : InventoryLot) (indicator : nat) (allocated : Q)
  : ResultRow :=
  mkRow (inv_item_number lot) (inv_location lot) (inv_batch_number lot)
        (inv_quantity lot) indicator allocated.

(** The per-lot rule as the specification words it, on the numbers of the
    program: the lots are taken in the given order. *)
Fixpoint greedy_rule `{Arithmetic} (remaining : num)
    (lots : list InventoryLot) : list ResultRow :=
  match lots with
  | [] => []
  | lot :: rest =>
      if exhausted remaining then
        row_for lot 0 0 :: greedy_rule remaining rest
      else if fits (inv_quantity lot) remaining then
        row_for lot 1 (inv_quantity lot)
          :: greedy_rule (minus remaining (inv_quantity lot)) rest
      else
        row_for lot 2 (value remaining) :: greedy_rule zero rest
  end.

(** The value of [remaining_target] when the loop over [lots] ends. *)
Definition remaining_after `{Arithmetic} (remaining : num)
    (lots : list InventoryLot) : num :=
  fst (fold_left allocate_row lots (remaining, [])).

(** The rows one processed request appends to [results]. *)
Definition item_rows `{Arithmetic} `{SortValues} (target_adj : Q)
    (item_inv : list InventoryLot) : list ResultRow :=
  greedy_rule (start target_adj) (sort_values (non_prd_rows_of item_inv))
    ++ map (fun lot => row_for lot 0 0) (prd_rows_of item_inv).

(** The requests that are honoured, in the specification's words: a request
    whose item was seen before is dropped, the first one of each item stays. *)
Fixpoint first_occurrences (seen : gset string)
    (df_adj : list AdjustmentRequest) : list AdjustmentRequest :=
  match df_adj with
  | [] => []
  | row :: rest =>
      if bool_decide (adj_item_number row ∈ seen) then
        first_occurrences seen rest
      else
        row :: first_occurrences ({[ adj_item_number row ]} ∪ seen) rest
  end.

(** The rows a request contributes when it is processed. *)
Definition request_rows `{Arithmetic} `{SortValues} (df_inv : list InventoryLot)
    (row : AdjustmentRequest) : list ResultRow :=
  match get_group df_inv (adj_item_number row) with
  | None => []
  | Some item_inv => item_rows (adj_adjustment row) item_inv
  end.

(** The lot a result row echoes. *)
Definition lot_of (row : ResultRow) : InventoryLot :=
  mkLot (res_item_number row) (res_location row) (res_batch_number row)
        (res_original_quantity row).

Definition count_indicator (k : nat) (rows : list ResultRow) : nat :=
  length (List.filter (fun r => (res_indicator r =? k)%nat) rows).

Definition rows_of_item (item : string) (rows : list ResultRow)
  : list ResultRow :=
  List.filter (fun r => String.eqb (res_item_number r) item) rows.

(** The request of an item that is honoured: the first one in file order. *)
Definition first_request (item : string) (df_adj : list AdjustmentRequest)
  : option AdjustmentRequest :=
  List.find (fun r => String.eqb (adj_item_number r) item) df_adj.

Fixpoint Qsum (l : list Q) : Q :=
  match l with
  | [] => 0
  | x :: l' => x + Qsum l'
  end.

Definition allocated_total (rows : list ResultRow) : Q :=
  Qsum (map res_allocated_quantity rows).

Definition on_hand_total (lots : list InventoryLot) : Q :=
  Qsum (map inv_quantity lots).

(** The rows of eligible (non-PRD) lots. *)
Definition eligible_rows (rows : list ResultRow) : list ResultRow :=
  List.filter (fun r => negb (is_prd (res_location r))) rows.

(** Conservation as the specification states it, for the rows of one item,
    its target and its lots. *)
Definition conservation (target : Q) (item_inv : list InventoryLot)
    (rows : list ResultRow) : Prop :=
  Qabs (allocated_total (eligible_rows rows)
        - Qmin target (on_hand_total (non_prd_rows_of item_inv))) <= EPS.

(** Conservation against the target clamped at zero. *)
Definition clamped_conservation (target : Q) (item_inv : list InventoryLot)
    (rows : list ResultRow) : Prop :=
  Qabs (allocated_total (eligible_rows rows)
        - Qmin (Qmax target 0) (on_hand_total (non_prd_rows_of item_inv)))
  <= EPS.

(** What a result row can be: untouched, fully consumed, or partial with
    an allocation that is not negative. *)
Definition row_shape (row : ResultRow) : Prop :=
  (res_indicator row = 0%nat /\ res_allocated_quantity row = 0) \/
  (res_indicator row = 1%nat
   /\ res_allocated_quantity row = res_original_quantity row) \/
  (res_indicator row = 2%nat /\ 0 <= res_allocated_quantity row).

(** [qs] are quantities that are all fully consumed, one after the other,
    from the remaining target. *)
Fixpoint all_full (remaining : Q) (qs : list Q) : Prop :=
  match qs with
  | [] => True
  | q :: qs' =>
      EPS < remaining /\ q <= remaining + EPS /\ all_full (remaining - q) qs'
  end.


(** Two rows agree on everything the allocation decides and on the quantity
    they echo. *)
Definition same_decision (r1 r2 : ResultRow) : Prop :=
  res_indicator r1 = res_indicator r2 /\
  res_allocated_quantity r1 == res_allocated_quantity r2 /\
  res_original_quantity r1 == res_original_quantity r2.

(** The sort key in the specification's words: item ascending (strings in
    lexicographic order of their character codes), then indicator
    descending, then original quantity ascending. *)
Definition presentation_le (a b : ResultRow) : Prop :=
  String_as_OT.lt (res_item_number a) (res_item_number b) \/
  (res_item_number a = res_item_number b /\
   ((res_indicator b < res_indicator a)%nat \/
    (res_indicator a = res_indicator b /\
     res_original_quantity a <= res_original_quantity b))).

(** Rows with the key of [k]. *)
Definition same_key (k r : ResultRow) : bool :=
  (String.eqb (res_item_number r) (res_item_number k)
   && (res_indicator r =? res_indicator k)%nat
   && Qeq_bool (res_original_quantity r) (res_original_quantity k))%bool.

(** Stability of the presentation sort: the rows of each key come out in the
    order they were appended. *)
Definition keeps_append_order (results sorted : list ResultRow) : Prop :=
  forall k,
    List.filter (same_key k) sorted = List.filter (same_key k) results.

(** The lot belongs to an item that some request names. *)
Definition requested (df_adj : list AdjustmentRequest) (lot : InventoryLot)
  : bool :=
  existsb (fun req => String.eqb (inv_item_number lot) (adj_item_number req))
          df_adj.

(** The rows of the inventory table with the given item. *)
Definition lots_of_item (item : string) (df_inv : list InventoryLot)
  : list InventoryLot :=
  List.filter (fun r => String.eqb (inv_item_number r) item) df_inv.

(** ** Exact arithmetic *)

(** The allocation loop is run with exact arithmetic when no tolerance test
    comes out differently from the comparison of the values and every
    subtraction gives the difference of the values.  [exact_trace r lots]
    checks this along the loop started with [remaining_target = r]. *)
Fixpoint exact_trace `{Arithmetic} (remaining : num)
    (lots : list InventoryLot) : bool :=
  match lots with
  | [] => true
  | lot :: rest =>
      let qty := inv_quantity lot in
      Bool.eqb (exhausted remaining) (Qle_bool (value remaining) EPS)
      && (if exhausted remaining then true
          else
            Bool.eqb (fits qty remaining)
                     (Qle_bool qty (value remaining + EPS))
            && (if fits qty remaining then
                  Qeq_bool (value (minus remaining qty))
                           (value remaining - qty)
                  && exact_trace (minus remaining qty) rest
                else true))
  end.

(** The same from the target of a request on. *)
Definition exact_run `{Arithmetic} (target_adj : Q)
    (lots : list InventoryLot) : bool :=
  Qeq_bool (value (start target_adj)) target_adj
  && exact_trace (start target_adj) lots.

(** The sign carried by a float that is not NaN. *)
Definition is_signed (s : bool) (f : spec_float) : Prop :=
  match f with
  | S754_zero s' | S754_infinity s' | S754_finite s' _ _ => s' = s
  | S754_nan => False
  end.

(** A float that is a zero or negative. *)
Definition not_positive (f : spec_float) : Prop :=
  match f with
  | S754_zero _ => True
  | S754_infinity s | S754_finite s _ _ => s = true
  | S754_nan => False
  end.

(** * Lemmas and theorems *)

(** ** An implementation of the sort interface *)

Section InsertionSort.

Variable goes_before : Q -> Q -> bool.

Hypothesis goes_before_le : forall x y, goes_before x y = true -> x <= y.

Hypothesis stays_behind_le : forall x y, goes_before x y = false -> y <= x.

Lemma insert_lot_perm x l :
  Permutation (x :: l) (insert_lot goes_before x l).
Proof using Type.
  induction l as [|y l IH]; simpl; [reflexivity|].
  destruct (goes_before _ _); [reflexivity|].
  rewrite perm_swap. now apply perm_skip.
Qed.

Lemma insertion_sort_perm rows :
  Permutation rows (insertion_sort goes_before rows).
Proof using Type.
  induction rows as [|x rows IH]; simpl; [constructor|].
  rewrite <- insert_lot_perm. now apply perm_skip.
Qed.

Lemma insert_lot_sorted x l :
  Sorted qty_le l -> Sorted qty_le (insert_lot goes_before x l).
Proof using goes_before_le stays_behind_le.
  induction 1 as [|y l Hl IH Hhd]; simpl.
  - repeat constructor.
  - destruct (goes_before _ _) eqn:E.
    + constructor; [now constructor|].
      constructor. now apply goes_before_le.
    + constructor; [exact IH|].
      destruct l as [|z l]; simpl.
      * constructor. now apply stays_behind_le.
      * destruct (goes_before _ (inv_quantity z)).
        -- constructor. now apply stays_behind_le.
        -- constructor. now inversion Hhd.
Qed.

Lemma insertion_sort_sorted rows :
  Sorted qty_le (insertion_sort goes_before rows).
Proof using goes_before_le stays_behind_le.
  induction rows as [|x rows IH]; simpl; [constructor|].
  now apply insert_lot_sorted.
Qed.

End InsertionSort.

Lemma Qle_bool_false x y : Qle_bool x y = false <-> y < x.
Proof.
  pose proof (Qle_bool_iff x y) as H. split.
  - intros E. apply Qnot_le_lt. intros Hle. apply H in Hle. congruence.
  - intros Hlt. destruct (Qle_bool x y); [|reflexivity].
    exfalso. apply (Qlt_not_le _ _ Hlt). now apply H.
Qed.

Lemma Qle_bool_true_le x y : Qle_bool x y = true -> x <= y.
Proof. apply Qle_bool_iff. Qed.

Lemma Qle_bool_false_le x y : Qle_bool x y = false -> y <= x.
Proof. rewrite Qle_bool_false. apply Qlt_le_weak. Qed.

(** Ties stay in input order. *)
#[global] Instance keep_ties_sort : SortValues := {|
  sort_values := insertion_sort Qle_bool;
  sort_values_perm := insertion_sort_perm Qle_bool;
  sort_values_sorted :=
    insertion_sort_sorted Qle_bool Qle_bool_true_le Qle_bool_false_le
|}.

(** ** Python numbers satisfy the laws of the interface *)

Lemma iter_pos_invariant {A} (P : A -> Prop) (f : A -> A) :
  (forall x, P x -> P (f x)) -> forall n x, P x -> P (SpecFloat.iter_pos f n x).
Proof.
  intros Hf. induction n as [n IH|n IH|]; intros x Hx; simpl; auto.
Qed.

Lemma shr_1_nonneg mrs : (0 <= shr_m mrs)%Z -> (0 <= shr_m (shr_1 mrs))%Z.
Proof.
  destruct mrs as [m r s]. destruct m as [|[p|p|]|p]; simpl; lia.
Qed.

Lemma shr_nonneg mrs e n :
  (0 <= shr_m mrs)%Z -> (0 <= shr_m (fst (shr mrs e n)))%Z.
Proof.
  intros Hm. destruct n as [|p|p]; simpl; try exact Hm.
  apply (iter_pos_invariant (fun x => (0 <= shr_m x)%Z)); [|exact Hm].
  apply shr_1_nonneg.
Qed.

Lemma shr_fexp_nonneg m e l :
  (0 <= m)%Z -> (0 <= shr_m (fst (shr_fexp 53 1024 m e l)))%Z.
Proof.
  intros Hm. unfold shr_fexp. apply shr_nonneg.
  destruct l as [|[| |]]; exact Hm.
Qed.

Lemma round_nearest_even_nonneg m l :
  (0 <= m)%Z -> (0 <= round_nearest_even m l)%Z.
Proof.
  intros Hm. destruct l as [|[| |]]; simpl; try lia.
  destruct (Z.even m); lia.
Qed.

(** Rounding keeps the sign and never gives NaN. *)
Lemma binary_round_aux_signed s m e l :
  (0 <= m)%Z -> is_signed s (binary_round_aux 53 1024 s m e l).
Proof.
  intros Hm. unfold binary_round_aux.
  pose proof (shr_fexp_nonneg m e l Hm) as H1.
  destruct (shr_fexp 53 1024 m e l) as [mrs' e']. cbn [fst] in H1.
  pose proof (shr_fexp_nonneg _ e' loc_Exact
                (round_nearest_even_nonneg _ (loc_of_shr_record mrs') H1))
    as H2.
  destruct (shr_fexp 53 1024 _ e' loc_Exact) as [mrs'' e'']. cbn [fst] in H2.
  destruct (shr_m mrs'') as [|p|p]; [reflexivity| |lia].
  destruct (Z.leb e'' _); reflexivity.
Qed.

Lemma binary_round_signed s m e : is_signed s (binary_round 53 1024 s m e).
Proof.
  unfold binary_round. destruct (shl_align m e _) as [mz ez].
  apply binary_round_aux_signed. lia.
Qed.

Lemma Z2F_signed z : (0 < z)%Z -> is_signed false (Z2F z).
Proof.
  intros Hz. unfold Z2F. destruct z as [|p|p]; try lia.
  apply binary_round_signed.
Qed.

Lemma f64_add_signed x : is_signed false x -> is_signed false (f64_add x EPS64).
Proof.
  destruct x as [s|s| |s m e]; simpl; intros Hs; try subst s; try easy.
  apply binary_round_signed.
Qed.

Lemma Qle_F_signed q f : q <= 0 -> is_signed false f -> Qle_F q f = true.
Proof.
  intros Hq. destruct f as [s|s| |s m e]; simpl; intros Hs; try subst s;
    try easy.
  - now apply Qle_bool_iff.
  - apply Qle_bool_iff. eapply Qle_trans; [exact Hq|].
    destruct e; unfold Qle; simpl; lia.
Qed.

Lemma py_exhausted_signed r :
  py_exhausted r = false -> ~ py_nan r -> is_signed false (py_float r).
Proof.
  unfold py_nan. destruct r as [z|f|z|f]; simpl.
  - intros Hz _. apply Z2F_signed. now apply Z.leb_gt in Hz.
  - destruct f as [[|]|[|]| |[|] m e]; simpl; try easy. intros _ H. apply H. now left.
  - intros Hz _. apply Z2F_signed. now apply Z.leb_gt in Hz.
  - destruct f as [[|]|[|]| |[|] m e]; simpl; try easy. intros _ H. apply H. now right.
Qed.

(** The binary64 number of a value that is not positive is a zero or
    carries the minus sign. *)
Lemma Q2F_not_positive q : q <= 0 -> not_positive (Q2F q).
Proof.
  intros Hq. unfold Q2F.
  assert (Qnum q <= 0)%Z as Hn by (unfold Qle in Hq; simpl in Hq; lia).
  destruct (Qnum q) as [|p|p]; [exact I | lia |].
  cbn [binary_normalize].
  pose proof (binary_round_signed true p
                (- Z.log2 (Z.pos (Qden q)))) as Hs.
  destruct (binary_round 53 1024 true p _) as [s|s| |s m e];
    simpl in Hs; try subst s; easy.
Qed.

Lemma SFleb_signed x y : not_positive x -> is_signed false y -> SFleb x y = true.
Proof.
  destruct x as [s|s| |s m e]; simpl; intros Hx; try subst s; try easy;
    destruct y as [s'|s'| |s' m' e']; simpl; intros Hy; try subst s';
    easy.
Qed.

(** A quantity that is not positive passes the tolerance test against every
    remaining target above the tolerance. *)
Lemma py_fits_non_positive qty r :
  qty <= 0 -> py_exhausted r = false -> ~ py_nan r -> py_fits qty r = true.
Proof.
  intros Hq Hr Hnan. unfold py_fits.
  pose proof (f64_add_signed _ (py_exhausted_signed r Hr Hnan)) as Hsum.
  destruct r; cbv zeta.
  - now apply Qle_F_signed.
  - now apply Qle_F_signed.
  - apply SFleb_signed; [now apply Q2F_not_positive | exact Hsum].
  - apply SFleb_signed; [now apply Q2F_not_positive | exact Hsum].
Qed.

Lemma py_exhausted_start adj t :
  t <= 0 -> py_exhausted (py_start adj t) = true.
Proof.
  intros Ht. unfold py_start.
  assert (Qnum t <= 0)%Z as Hn by (unfold Qle in Ht; simpl in Ht; lia).
  pose proof (Q2F_not_positive t Ht) as Hf.
  destruct adj; simpl; try (now apply Z.leb_le);
    destruct (Q2F t) as [s|s| |s m e]; simpl in Hf; try subst s; easy.
Qed.

Lemma py_value_not_negative r : py_exhausted r = false -> 0 <= py_value r.
Proof.
  destruct r as [z|f|z|f]; simpl.
  - intros Hz. apply Z.leb_gt in Hz. unfold Qle. simpl. lia.
  - destruct f as [[|]|[|]| |[|] m e]; simpl; try easy.
    intros _. destruct e; unfold Qle; simpl; lia.
  - intros Hz. apply Z.leb_gt in Hz. unfold Qle. simpl. lia.
  - destruct f as [[|]|[|]| |[|] m e]; simpl; try easy.
    intros _. destruct e; unfold Qle; simpl; lia.
Qed.

(** The arithmetic of the program: [adj] is the kind of number the rows of
    the adjustment table hold, [inv_int] says whether the ['Sum of Physical
    inventory'] column is int64 (else float64). *)
Definition python_arith (adj : scalar) (inv_int : bool) : Arithmetic := {|
  num := pynum;
  start := py_start adj;
  exhausted := py_exhausted;
  fits := py_fits;
  minus := py_minus inv_int;
  zero := PyInt 0;
  value := py_value;
  exhausted_zero := eq_refl;
  exhausted_start := py_exhausted_start adj;
  value_not_negative := py_value_not_negative
|}.

(** ** The allocation loop as a recursion on the lots *)

Lemma allocate_row_eq `{Arithmetic} remaining results lot :
  allocate_row (remaining, results) lot =
  (snd (decide_lot remaining (inv_quantity lot)),
   results ++ greedy_rule remaining [lot]).
Proof.
  unfold allocate_row, decide_lot, result_of, row_for. simpl.
  destruct (exhausted remaining); [reflexivity|].
  destruct (fits _ remaining); reflexivity.
Qed.

Lemma greedy_rule_cons `{Arithmetic} remaining lot rest :
  greedy_rule remaining (lot :: rest) =
  greedy_rule remaining [lot]
    ++ greedy_rule (snd (decide_lot remaining (inv_quantity lot))) rest.
Proof.
  unfold decide_lot. simpl.
  destruct (exhausted remaining); [reflexivity|].
  destruct (fits _ remaining); reflexivity.
Qed.

Lemma fold_allocate_row `{Arithmetic} lots : forall remaining results,
  snd (fold_left allocate_row lots (remaining, results)) =
  results ++ greedy_rule remaining lots.
Proof.
  induction lots as [|lot rest IH]; intros remaining results.
  - simpl. now rewrite app_nil_r.
  - cbn [fold_left].
    rewrite allocate_row_eq, IH, (greedy_rule_cons remaining lot rest).
    now rewrite <- app_assoc.
Qed.

Lemma fold_emit_prd lots : forall results,
  fold_left emit_prd lots results =
  results ++ map (fun lot => row_for lot 0 0) lots.
Proof.
  induction lots as [|lot rest IH]; intros results; simpl.
  - now rewrite app_nil_r.
  - rewrite IH. unfold emit_prd, row_for. rewrite <- app_assoc. reflexivity.
Qed.

Lemma greedy_rule_exhausted `{Arithmetic} lots : forall remaining,
  exhausted remaining = true ->
  greedy_rule remaining lots = map (fun lot => row_for lot 0 0) lots.
Proof.
  induction lots as [|lot rest IH]; intros remaining Hex; [reflexivity|].
  simpl. rewrite Hex. f_equal. now apply IH.
Qed.

Lemma process_request_seen `{Arithmetic} `{SortValues}
    df_inv results processed_items row :
  adj_item_number row ∈ processed_items ->
  process_request df_inv (results, processed_items) row
  = (results, processed_items).
Proof.
  intros Hin. unfold process_request. now rewrite bool_decide_eq_true_2.
Qed.

Lemma process_request_no_group `{Arithmetic} `{SortValues}
    df_inv results processed_items row :
  adj_item_number row ∉ processed_items ->
  get_group df_inv (adj_item_number row) = None ->
  process_request df_inv (results, processed_items) row
  = (results, {[ adj_item_number row ]} ∪ processed_items).
Proof.
  intros Hin Hg. unfold process_request.
  rewrite bool_decide_eq_false_2 by exact Hin. now rewrite Hg.
Qed.

Lemma process_request_group `{Arithmetic} `{SortValues}
    df_inv results processed_items row item_inv :
  adj_item_number row ∉ processed_items ->
  get_group df_inv (adj_item_number row) = Some item_inv ->
  process_request df_inv (results, processed_items) row
  = (results ++ item_rows (adj_adjustment row) item_inv,
     {[ adj_item_number row ]} ∪ processed_items).
Proof.
  intros Hin Hg. unfold process_request.
  rewrite bool_decide_eq_false_2 by exact Hin. rewrite Hg.
  pose proof (fold_allocate_row (sort_values (non_prd_rows_of item_inv))
                (start (adj_adjustment row)) results) as Hfold.
  destruct (fold_left allocate_row _ _) as [r res]. simpl in Hfold. subst res.
  rewrite fold_emit_prd. unfold item_rows. now rewrite app_assoc.
Qed.

(** The three cases of the rule, as a case analysis for proofs. *)
Lemma decide_lot_cases `{Arithmetic} remaining qty :
  (exhausted remaining = true
   /\ decide_lot remaining qty = (0%nat, 0, remaining)) \/
  (exhausted remaining = false /\ fits qty remaining = true
   /\ decide_lot remaining qty = (1%nat, qty, minus remaining qty)) \/
  (exhausted remaining = false /\ fits qty remaining = false
   /\ decide_lot remaining qty = (2%nat, value remaining, zero)).
Proof.
  unfold decide_lot.
  destruct (exhausted remaining); [now left | right].
  destruct (fits qty remaining); [left | right]; auto.
Qed.

Lemma greedy_rule_step `{Arithmetic} remaining lot rest :
  greedy_rule remaining (lot :: rest) =
  let '(indicator, allocated, remaining') :=
    decide_lot remaining (inv_quantity lot) in
  row_for lot indicator allocated :: greedy_rule remaining' rest.
Proof.
  unfold decide_lot. simpl.
  destruct (exhausted remaining); [reflexivity|].
  destruct (fits _ remaining); reflexivity.
Qed.

Lemma fold_allocate_row_fst `{Arithmetic} lots :
  forall remaining results results',
  fst (fold_left allocate_row lots (remaining, results))
  = fst (fold_left allocate_row lots (remaining, results')).
Proof.
  induction lots as [|lot rest IH]; intros remaining results results';
    [reflexivity|].
  cbn [fold_left]. rewrite !allocate_row_eq. apply IH.
Qed.

Lemma remaining_after_nil `{Arithmetic} remaining :
  remaining_after remaining [] = remaining.
Proof. reflexivity. Qed.

Lemma remaining_after_cons `{Arithmetic} remaining lot rest :
  remaining_after remaining (lot :: rest)
  = remaining_after (snd (decide_lot remaining (inv_quantity lot))) rest.
Proof.
  unfold remaining_after. cbn [fold_left]. rewrite allocate_row_eq.
  apply fold_allocate_row_fst.
Qed.

Lemma remaining_after_exhausted `{Arithmetic} lots : forall remaining,
  exhausted remaining = true -> remaining_after remaining lots = remaining.
Proof.
  induction lots as [|lot rest IH]; intros remaining Hex; [reflexivity|].
  rewrite remaining_after_cons. unfold decide_lot. rewrite Hex.
  now apply IH.
Qed.

Lemma EPS_pos : 0 < EPS.
Proof. reflexivity. Qed.

Lemma zero_rows_indicator lots row :
  In row (map (fun lot => row_for lot 0 0) lots) ->
  res_indicator row = 0%nat /\ res_allocated_quantity row = 0.
Proof. intros Hin. apply in_map_iff in Hin as (lot & <- & _). now split. Qed.

(** ** The greedy per-lot rule *)



(** The tests of the rule are those of binary64.  With target 30.396999 and
    lots of 5.248 and 25.149 in float columns the remaining target after the
    first lot is 25.148998999999996, the float sum with 0.000001 is 25.149,
    and the second lot is fully consumed.  With target and lot both
    2^53 + 1 in integer columns the float sum is 2^53 and the lot is not. *)
Lemma greedy_rule_binary64_examples :
  fst (@process_request (python_arith PythonFloat false) keep_ties_sort
         [mkLot "A1" None None (221212943415509 # 8796093022208);
          mkLot "A1" None None (5908722711110091 # 1125899906842624)]
         ([], ∅) (mkAdj "A1" (4277997292799417 # 140737488355328)))
  = [mkRow "A1" None None (5908722711110091 # 1125899906842624) 1
       (5908722711110091 # 1125899906842624);
     mkRow "A1" None None (221212943415509 # 8796093022208) 1
       (221212943415509 # 8796093022208)] /\
  fst (@process_request (python_arith PythonInt true) keep_ties_sort
         [mkLot "A1" None None 9007199254740993]
         ([], ∅) (mkAdj "A1" 9007199254740993))
  = [mkRow "A1" None None 9007199254740993 2 9007199254740993].
Proof. split; reflexivity. Qed.

(** ** Excluded lots *)

Lemma prefix_app (a b : string) :
  String.prefix a b = true <-> exists post, b = (a ++ post)%string.
Proof.
  revert b. induction a as [|c a IH]; intros b.
  - split; [intros _; now exists b | now destruct b].
  - destruct b as [|d b]; simpl.
    + split; [discriminate | intros [post Hp]; discriminate].
    + destruct (ascii_dec c d) as [->|Hne].
      * rewrite IH. split; intros [post Hp]; exists post.
        -- now rewrite Hp.
        -- now inversion Hp.
      * split; [discriminate | intros [post Hp]; inversion Hp; congruence].
Qed.

Lemma str_in_app (needle hay : string) :
  str_in needle hay = true
  <-> exists pre post, hay = (pre ++ needle ++ post)%string.
Proof.
  induction hay as [|c hay IH].
  - cbn [str_in]. rewrite orb_false_r, prefix_app. split.
    + intros [post Hp]. now exists EmptyString, post.
    + intros (pre & post & Hp). exists post.
      destruct pre; [exact Hp | discriminate].
  - cbn [str_in]. rewrite orb_true_iff, prefix_app, IH. split.
    + intros [[post Hp] | (pre & post & Hp)].
      * now exists EmptyString, post.
      * exists (String c pre), post. simpl. now rewrite Hp.
    + intros (pre & post & Hp). destruct pre as [|d pre].
      * left. now exists post.
      * right. exists pre, post. simpl in Hp. now inversion Hp.
Qed.

Lemma lot_of_row_for lot indicator allocated :
  lot_of (row_for lot indicator allocated) = lot.
Proof. now destruct lot. Qed.

Lemma greedy_rule_lots `{Arithmetic} lots : forall remaining,
  map lot_of (greedy_rule remaining lots) = lots.
Proof.
  induction lots as [|lot rest IH]; intros remaining; [reflexivity|].
  simpl. destruct (exhausted remaining); [|destruct (fits _ remaining)];
    simpl; now rewrite lot_of_row_for, IH.
Qed.

Lemma prd_rows_lots lots :
  map lot_of (map (fun lot => row_for lot 0 0) lots) = lots.
Proof.
  induction lots as [|lot rest IH]; [reflexivity|].
  simpl. now rewrite lot_of_row_for, IH.
Qed.

Lemma process_request_rows `{Arithmetic} `{SortValues}
    df_inv results processed_items row :
  process_request df_inv (results, processed_items) row =
  if bool_decide (adj_item_number row ∈ processed_items) then
    (results, processed_items)
  else
    (results ++ request_rows df_inv row,
     {[ adj_item_number row ]} ∪ processed_items).
Proof.
  destruct (decide (adj_item_number row ∈ processed_items)) as [Hin|Hnew].
  - rewrite process_request_seen, bool_decide_eq_true_2; auto.
  - rewrite bool_decide_eq_false_2 by exact Hnew. unfold request_rows.
    destruct (get_group df_inv (adj_item_number row)) as [item_inv|] eqn:Hg.
    + now apply process_request_group.
    + rewrite app_nil_r. now apply process_request_no_group.
Qed.

Lemma fold_process_request `{Arithmetic} `{SortValues} df_inv df_adj :
  forall results processed_items,
  fold_left (process_request df_inv) df_adj (results, processed_items) =
  (results ++ flat_map (request_rows df_inv)
                       (first_occurrences processed_items df_adj),
   list_to_set (map adj_item_number df_adj) ∪ processed_items).
Proof.
  induction df_adj as [|row rest IH]; intros results processed_items.
  - simpl. rewrite app_nil_r. f_equal. set_solver.
  - cbn [fold_left first_occurrences]. rewrite process_request_rows.
    destruct (decide (adj_item_number row ∈ processed_items)) as [Hin|Hnew].
    + rewrite bool_decide_eq_true_2 by exact Hin. rewrite IH. f_equal.
      set_solver.
    + rewrite bool_decide_eq_false_2 by exact Hnew. rewrite IH.
      cbn [flat_map]. rewrite <- app_assoc. f_equal. set_solver.
Qed.

Lemma collect_rows `{Arithmetic} `{SortValues} df_adj df_inv :
  fst (collect df_adj df_inv)
  = flat_map (request_rows df_inv) (first_occurrences ∅ df_adj).
Proof. unfold collect. now rewrite fold_process_request. Qed.

Lemma first_occurrences_In seen df_adj row :
  In row (first_occurrences seen df_adj) ->
  In row df_adj /\ adj_item_number row ∉ seen.
Proof.
  revert seen. induction df_adj as [|r rest IH]; intros seen; [easy|].
  cbn [first_occurrences].
  destruct (decide (adj_item_number r ∈ seen)) as [Hin|Hnew].
  - rewrite bool_decide_eq_true_2 by exact Hin. intros Hr.
    apply IH in Hr as [? ?]. split; [now right | assumption].
  - rewrite bool_decide_eq_false_2 by exact Hnew. intros [->|Hr].
    + split; [now left | assumption].
    + apply IH in Hr as [? ?]. split; [now right | set_solver].
Qed.

Lemma get_group_Some df_inv item item_inv :
  get_group df_inv item = Some item_inv ->
  item_inv = List.filter (fun r => String.eqb (inv_item_number r) item) df_inv
  /\ item_inv <> [].
Proof.
  unfold get_group. destruct (List.filter _ df_inv) eqn:E; [discriminate|].
  intros [= <-]. split; [reflexivity | discriminate].
Qed.

Lemma get_group_item df_inv item item_inv lot :
  get_group df_inv item = Some item_inv ->
  In lot item_inv <-> In lot df_inv /\ inv_item_number lot = item.
Proof.
  intros Hg. apply get_group_Some in Hg as [-> _].
  rewrite filter_In, String.eqb_eq. reflexivity.
Qed.

(** Every row appended for an item echoes one lot of the item. *)
Lemma item_rows_lots `{Arithmetic} `{SortValues} target item_inv :
  Permutation (map lot_of (item_rows target item_inv))
              (non_prd_rows_of item_inv ++ prd_rows_of item_inv).
Proof.
  unfold item_rows. rewrite map_app, greedy_rule_lots, prd_rows_lots.
  apply Permutation_app_tail. symmetry. apply sort_values_perm.
Qed.

Lemma partition_perm {A} (f : A -> bool) (l : list A) :
  Permutation (List.filter (fun x => negb (f x)) l ++ List.filter f l) l.
Proof.
  induction l as [|x l IH]; [constructor|].
  simpl. destruct (f x); simpl.
  - rewrite <- Permutation_middle. now apply perm_skip.
  - now apply perm_skip.
Qed.

Lemma item_rows_lots_all `{Arithmetic} `{SortValues} target item_inv :
  Permutation (map lot_of (item_rows target item_inv)) item_inv.
Proof.
  rewrite item_rows_lots. apply partition_perm.
Qed.

Lemma request_rows_item `{Arithmetic} `{SortValues} df_inv req row :
  In row (request_rows df_inv req) ->
  res_item_number row = adj_item_number req.
Proof.
  unfold request_rows.
  destruct (get_group df_inv (adj_item_number req)) as [item_inv|] eqn:Hg;
    [|easy].
  intros Hin. apply (in_map lot_of) in Hin.
  eapply Permutation_in in Hin; [|apply item_rows_lots_all].
  eapply get_group_item in Hin as [_ Hitem]; [|exact Hg]. exact Hitem.
Qed.

Lemma first_occurrences_covers seen df_adj req :
  In req df_adj -> adj_item_number req ∉ seen ->
  exists req', In req' (first_occurrences seen df_adj)
               /\ adj_item_number req' = adj_item_number req.
Proof.
  revert seen. induction df_adj as [|r rest IH]; intros seen; [easy|].
  intros Hin Hnew. cbn [first_occurrences].
  destruct (decide (adj_item_number r ∈ seen)) as [Hseen|Hfresh].
  - rewrite bool_decide_eq_true_2 by exact Hseen.
    destruct Hin as [->|Hin]; [contradiction|]. now apply IH.
  - rewrite bool_decide_eq_false_2 by exact Hfresh.
    destruct (string_dec (adj_item_number r) (adj_item_number req)) as [E|NE].
    + exists r. split; [now left | exact E].
    + destruct Hin as [->|Hin]; [contradiction|].
      destruct (IH ({[ adj_item_number r ]} ∪ seen) Hin) as (req' & ? & ?).
      * set_solver.
      * exists req'. split; [now right | assumption].
Qed.

Lemma insert_result_perm x l : Permutation (x :: l) (insert_result x l).
Proof.
  induction l as [|y l IH]; simpl; [reflexivity|].
  destruct (result_leb x y); [reflexivity|].
  rewrite perm_swap. now apply perm_skip.
Qed.

Lemma sort_result_perm results : Permutation results (sort_result results).
Proof.
  induction results as [|x results IH]; simpl; [constructor|].
  rewrite <- insert_result_perm. now apply perm_skip.
Qed.

Lemma run_Result `{Arithmetic} `{SortValues} df_adj df_inv df_result :
  run df_adj df_inv = Result df_result ->
  df_result = sort_result (fst (collect df_adj df_inv))
  /\ fst (collect df_adj df_inv) <> [].
Proof.
  unfold run. destruct (fst (collect df_adj df_inv)) eqn:E; [discriminate|].
  intros [= <-]. split; [reflexivity | discriminate].
Qed.

(** Membership in the result of a run, traced back to the request and the
    group it comes from. *)
Lemma run_row_origin `{Arithmetic} `{SortValues} df_adj df_inv df_result row :
  run df_adj df_inv = Result df_result ->
  In row df_result <->
  exists req item_inv,
    In req (first_occurrences ∅ df_adj)
    /\ get_group df_inv (adj_item_number req) = Some item_inv
    /\ In row (item_rows (adj_adjustment req) item_inv).
Proof.
  intros Hrun. apply run_Result in Hrun as [-> _].
  split.
  - intros Hin. eapply Permutation_in in Hin;
      [|symmetry; apply sort_result_perm].
    rewrite collect_rows in Hin. apply in_flat_map in Hin as (req & Hreq & Hin).
    unfold request_rows in Hin.
    destruct (get_group df_inv (adj_item_number req)) as [item_inv|] eqn:Hg;
      [|easy].
    now exists req, item_inv.
  - intros (req & item_inv & Hreq & Hg & Hin).
    eapply Permutation_in; [apply sort_result_perm|].
    rewrite collect_rows. apply in_flat_map. exists req. split; [exact Hreq|].
    unfold request_rows. now rewrite Hg.
Qed.

Lemma greedy_rule_In `{Arithmetic} remaining lots row :
  In row (greedy_rule remaining lots) -> In (lot_of row) lots.
Proof.
  intros Hin. apply (in_map lot_of) in Hin.
  now rewrite greedy_rule_lots in Hin.
Qed.

(** C5. Exclusion invariance: [is_prd] holds exactly of the locations whose
    upper-cased text contains "PRD" (a missing or blank location is not
    excluded) and splits the lots of an item into the excluded and the
    eligible ones; in the result of any run, whatever the targets, every row
    at an excluded location has indicator 0 and allocated quantity 0, and
    every excluded lot of a requested item is present with such a row. *)
Theorem exclusion_invariance `{Arithmetic} `{SortValues} :
  (forall loc,
     is_prd loc = true <->
     exists s pre post,
       loc = Some s /\ upper s = (pre ++ "PRD" ++ post)%string) /\
  is_prd None = false /\
  is_prd (Some ""%string) = false /\
  (forall item_inv lot,
     (In lot (prd_rows_of item_inv)
      <-> In lot item_inv /\ is_prd (inv_location lot) = true) /\
     (In lot (non_prd_rows_of item_inv)
      <-> In lot item_inv /\ is_prd (inv_location lot) = false)) /\
  (forall df_adj df_inv df_result,
     run df_adj df_inv = Result df_result ->
     (forall row,
        In row df_result -> is_prd (res_location row) = true ->
        res_indicator row = 0%nat /\ res_allocated_quantity row = 0) /\
     (forall req lot,
        In req df_adj -> In lot df_inv ->
        inv_item_number lot = adj_item_number req ->
        is_prd (inv_location lot) = true ->
        In (row_for lot 0 0) df_result)).
Proof.
  split; [|split; [reflexivity|split; [reflexivity|split]]].
  - intros [s|]; simpl.
    + rewrite str_in_app. split.
      * intros (pre & post & Hs). now exists s, pre, post.
      * intros (s' & pre & post & [= <-] & Hs). now exists pre, post.
    + split; [discriminate | intros (s & pre & post & Hs & _); discriminate].
  - intros item_inv lot. unfold prd_rows_of, non_prd_rows_of.
    rewrite !filter_In, negb_true_iff. tauto.
  - intros df_adj df_inv df_result Hrun. split.
    + intros row Hin Hprd.
      apply (run_row_origin _ _ _ _ Hrun) in Hin
        as (req & item_inv & _ & _ & Hin).
      unfold item_rows in Hin. apply in_app_or in Hin as [Hin|Hin].
      * apply greedy_rule_In in Hin.
        eapply Permutation_in in Hin; [|symmetry; apply sort_values_perm].
        unfold non_prd_rows_of in Hin. apply filter_In in Hin as [_ Hnot].
        simpl in Hnot. rewrite Hprd in Hnot. discriminate.
      * apply in_map_iff in Hin as (lot & <- & _). now split.
    + intros req lot Hreq Hlot Hitem Hprd.
      destruct (first_occurrences_covers ∅ df_adj req Hreq) as (req' & Hfirst & E);
        [set_solver|].
      assert (In lot (List.filter
                (fun r => String.eqb (inv_item_number r) (adj_item_number req'))
                df_inv)) as Hgroup.
      { apply filter_In. split; [exact Hlot|]. apply String.eqb_eq. congruence. }
      apply (run_row_origin _ _ _ _ Hrun).
      exists req'. unfold get_group.
      destruct (List.filter _ df_inv) as [|lot0 group] eqn:Hfilter; [easy|].
      exists (lot0 :: group). split; [exact Hfirst|]. split; [reflexivity|].
      unfold item_rows. apply in_or_app. right.
      apply in_map_iff. exists lot. split; [reflexivity|].
      unfold prd_rows_of. apply filter_In. now split.
Qed.

Lemma exclusion_invariance_witness :
  res_indicator (mkRow "A4" (Some "PRD-WH1"%string) None 50 0 0) = 0%nat /\
  In (row_for (mkLot "A4" (Some "prd-wh2"%string) None 7) 0 0)
     [mkRow "A4" (Some "W"%string) None 60 2 50;
      mkRow "A4" (Some "prd-wh2"%string) None 7 0 0;
      mkRow "A4" (Some "PRD-WH1"%string) None 50 0 0].
Proof.
  destruct (@exclusion_invariance
      (python_arith PythonInt true) keep_ties_sort) as (_ & _ & _ & _ & Hrun).
  destruct (Hrun [mkAdj "A4" 50]
              [mkLot "A4" (Some "PRD-WH1"%string) None 50;
               mkLot "A4" (Some "W"%string) None 60;
               mkLot "A4" (Some "prd-wh2"%string) None 7]
              [mkRow "A4" (Some "W"%string) None 60 2 50;
               mkRow "A4" (Some "prd-wh2"%string) None 7 0 0;
               mkRow "A4" (Some "PRD-WH1"%string) None 50 0 0])
    as [Hrows Hlots]; [reflexivity|].
  split.
  - apply Hrows; [simpl; tauto | reflexivity].
  - apply (Hlots (mkAdj "A4" 50)); [simpl; tauto | simpl; tauto | | ]; reflexivity.
Defined.

(** ** The partial row *)

(** Where the rule leaves a partial row: everything before it is a full row
    met with a remaining target that passed both tests, everything after it
    is untouched, and the remaining target at that point passed the first
    test and failed the second. *)
Lemma greedy_rule_partial `{Arithmetic} lots : forall remaining pre row post,
  greedy_rule remaining lots = pre ++ row :: post ->
  res_indicator row = 2%nat ->
  exhausted remaining = false /\
  Forall (fun x => res_indicator x = 1%nat) pre /\
  Forall (fun x => res_indicator x = 0%nat /\ res_allocated_quantity x = 0)
         post /\
  (let r := remaining_after remaining (map lot_of pre) in
   exhausted r = false /\ fits (res_original_quantity row) r = false
   /\ res_allocated_quantity row = value r) /\
  (forall pre1 x pre2,
     pre = pre1 ++ x :: pre2 ->
     let r1 := remaining_after remaining (map lot_of pre1) in
     exhausted r1 = false /\ fits (res_original_quantity x) r1 = true).
Proof.
  induction lots as [|lot rest IH]; intros remaining pre row post Hrows Hind.
  - now destruct pre.
  - rewrite greedy_rule_step in Hrows.
    destruct (decide_lot_cases remaining (inv_quantity lot))
      as [[Hle E] | [(Hrem & Hfit & E) | (Hrem & Hbig & E)]];
      rewrite E in Hrows.
    + (* exhausted: no row of indicator 2 anywhere *)
      rewrite greedy_rule_exhausted in Hrows by exact Hle.
      assert (In row (map (fun lot => row_for lot 0 0) (lot :: rest))) as Hin.
      { cbn [map]. rewrite Hrows. apply in_elt. }
      apply zero_rows_indicator in Hin as [Hz _]. congruence.
    + (* full *)
      destruct pre as [|x pre]; simpl in Hrows.
      { injection Hrows as <- _. discriminate. }
      injection Hrows as <- Hrows.
      destruct (IH _ _ _ _ Hrows Hind) as (Hnext & Hpre & Hpost & Hrow & Hfirst).
      split; [exact Hrem|]. split; [now constructor|].
      split; [exact Hpost|]. split.
      * cbn [map]. rewrite lot_of_row_for, remaining_after_cons, E. exact Hrow.
      * intros pre1 y pre2 Hsplit. destruct pre1 as [|z pre1]; simpl in Hsplit.
        -- injection Hsplit as <- _. cbn [map]. rewrite remaining_after_nil.
           simpl. now split.
        -- injection Hsplit as <- Hsplit. cbn [map].
           rewrite lot_of_row_for, remaining_after_cons, E.
           now apply (Hfirst pre1 y pre2).
    + (* partial *)
      rewrite greedy_rule_exhausted in Hrows by apply exhausted_zero.
      destruct pre as [|x pre]; simpl in Hrows.
      * injection Hrows as <- <-. split; [exact Hrem|].
        split; [constructor|]. split.
        -- apply List.Forall_forall. intros y. apply zero_rows_indicator.
        -- split; [simpl; auto|]. intros [|? ?] ? ? Hsplit; discriminate.
      * injection Hrows as _ Hrows.
        assert (In row (map (fun lot => row_for lot 0 0) rest)) as Hin.
        { rewrite Hrows. apply in_elt. }
        apply zero_rows_indicator in Hin as [Hz _]. congruence.
Qed.

Lemma count_indicator_app k rows1 rows2 :
  count_indicator k (rows1 ++ rows2)
  = (count_indicator k rows1 + count_indicator k rows2)%nat.
Proof. unfold count_indicator. now rewrite List.filter_app, length_app. Qed.

Lemma count_indicator_zero_rows k lots :
  k <> 0%nat -> count_indicator k (map (fun lot => row_for lot 0 0) lots) = 0%nat.
Proof.
  intros Hk. induction lots as [|lot rest IH]; [reflexivity|].
  unfold count_indicator in *. simpl.
  destruct k as [|k]; [contradiction | exact IH].
Qed.

Lemma Permutation_filter_bool {A} (f : A -> bool) (l l' : list A) :
  Permutation l l' -> Permutation (List.filter f l) (List.filter f l').
Proof.
  induction 1 as [|x l l' Hp IH|x y l|l l' l'' Hp1 IH1 Hp2 IH2]; simpl.
  - constructor.
  - destruct (f x); [now apply perm_skip | exact IH].
  - destruct (f x), (f y); try reflexivity. apply perm_swap.
  - now transitivity (List.filter f l').
Qed.

Lemma count_indicator_perm k rows rows' :
  Permutation rows rows' -> count_indicator k rows = count_indicator k rows'.
Proof.
  intros Hp. unfold count_indicator.
  apply Permutation_length. now apply Permutation_filter_bool.
Qed.

Lemma greedy_rule_one_partial `{Arithmetic} lots : forall remaining,
  (count_indicator 2 (greedy_rule remaining lots) <= 1)%nat.
Proof.
  induction lots as [|lot rest IH]; intros remaining; [cbv; lia|].
  rewrite greedy_rule_step.
  destruct (decide_lot_cases remaining (inv_quantity lot))
    as [[Hle E] | [(Hrem & Hfit & E) | (Hrem & Hbig & E)]]; rewrite E.
  - rewrite greedy_rule_exhausted by exact Hle.
    change (count_indicator 2 (map (fun lot => row_for lot 0 0) (lot :: rest))
            <= 1)%nat.
    rewrite count_indicator_zero_rows; lia.
  - change (count_indicator 2
              (greedy_rule (minus remaining (inv_quantity lot)) rest)
            <= 1)%nat.
    apply IH.
  - rewrite greedy_rule_exhausted by apply exhausted_zero.
    change (S (count_indicator 2 (map (fun lot => row_for lot 0 0) rest))
            <= 1)%nat.
    rewrite count_indicator_zero_rows; lia.
Qed.

Lemma item_rows_one_partial `{Arithmetic} `{SortValues} target item_inv :
  (count_indicator 2 (item_rows target item_inv) <= 1)%nat.
Proof.
  unfold item_rows. rewrite count_indicator_app.
  rewrite count_indicator_zero_rows by discriminate.
  pose proof (greedy_rule_one_partial
                (sort_values (non_prd_rows_of item_inv)) (start target)). lia.
Qed.

Lemma filter_nil_all {A} (f : A -> bool) (l : list A) :
  (forall x, In x l -> f x = false) -> List.filter f l = [].
Proof.
  induction l as [|x l IH]; intros Hall; [reflexivity|].
  simpl. rewrite (Hall x) by now left. apply IH. intros y Hy. apply Hall. now right.
Qed.

Lemma filter_all {A} (f : A -> bool) (l : list A) :
  (forall x, In x l -> f x = true) -> List.filter f l = l.
Proof.
  induction l as [|x l IH]; intros Hall; [reflexivity|].
  simpl. rewrite (Hall x) by now left. f_equal. apply IH.
  intros y Hy. apply Hall. now right.
Qed.

Lemma rows_of_item_request `{Arithmetic} `{SortValues} df_inv req item :
  rows_of_item item (request_rows df_inv req)
  = if String.eqb (adj_item_number req) item then request_rows df_inv req
    else [].
Proof.
  unfold rows_of_item. destruct (String.eqb_spec (adj_item_number req) item)
    as [E|NE].
  - apply filter_all. intros row Hin. apply String.eqb_eq.
    apply request_rows_item in Hin. congruence.
  - apply filter_nil_all. intros row Hin. apply String.eqb_neq.
    apply request_rows_item in Hin. congruence.
Qed.

Lemma rows_of_item_seen `{Arithmetic} `{SortValues}
    df_inv item df_adj : forall seen,
  item ∈ seen ->
  rows_of_item item
    (flat_map (request_rows df_inv) (first_occurrences seen df_adj)) = [].
Proof.
  intros seen Hseen. apply filter_nil_all. intros row Hin.
  apply in_flat_map in Hin as (req & Hreq & Hin).
  apply first_occurrences_In in Hreq as [_ Hnew].
  apply request_rows_item in Hin. apply String.eqb_neq. congruence.
Qed.

Lemma rows_of_item_first `{Arithmetic} `{SortValues}
    df_inv item df_adj : forall seen,
  item ∉ seen ->
  rows_of_item item
    (flat_map (request_rows df_inv) (first_occurrences seen df_adj))
  = match first_request item df_adj with
    | Some req => request_rows df_inv req
    | None => []
    end.
Proof.
  induction df_adj as [|r rest IH]; intros seen Hnew; [reflexivity|].
  cbn [first_occurrences first_request find].
  fold (first_request item rest).
  destruct (decide (adj_item_number r ∈ seen)) as [Hin|Hfresh].
  - rewrite bool_decide_eq_true_2 by exact Hin.
    destruct (String.eqb_spec (adj_item_number r) item) as [E|NE];
      [congruence | now apply IH].
  - rewrite bool_decide_eq_false_2 by exact Hfresh. cbn [flat_map].
    unfold rows_of_item at 1. rewrite List.filter_app.
    fold (rows_of_item item (request_rows df_inv r)).
    fold (rows_of_item item
            (flat_map (request_rows df_inv)
               (first_occurrences ({[adj_item_number r]} ∪ seen) rest))).
    rewrite rows_of_item_request.
    destruct (String.eqb_spec (adj_item_number r) item) as [E|NE].
    + rewrite rows_of_item_seen by set_solver. apply app_nil_r.
    + simpl. apply IH. set_solver.
Qed.

(** The rows of one item in the result of a run are the rows of its first
    request, rearranged. *)
Lemma run_rows_of_item `{Arithmetic} `{SortValues}
    df_adj df_inv df_result item :
  run df_adj df_inv = Result df_result ->
  Permutation (rows_of_item item df_result)
    match first_request item df_adj with
    | Some req => request_rows df_inv req
    | None => []
    end.
Proof.
  intros Hrun. apply run_Result in Hrun as [-> _].
  rewrite <- (rows_of_item_first df_inv item df_adj ∅) by set_solver.
  rewrite <- collect_rows. unfold rows_of_item.
  apply Permutation_filter_bool. symmetry. apply sort_result_perm.
Qed.

#[global] Instance qty_le_trans : Transitive qty_le.
Proof. intros a b c. unfold qty_le. apply Qle_trans. Qed.

Lemma sorted_before {A} (R : A -> A -> Prop) `{!Transitive R} l1 x l2 :
  Sorted R (l1 ++ x :: l2) -> Forall (fun y => R y x) l1.
Proof.
  intros Hs. apply Sorted_StronglySorted in Hs; [|assumption].
  induction l1 as [|y l1 IH]; [constructor|].
  simpl in Hs. apply StronglySorted_inv in Hs as [Hs Hall].
  constructor; [|now apply IH].
  rewrite List.Forall_forall in Hall. apply Hall. apply in_elt.
Qed.

(** ** What exact arithmetic gives *)

Lemma eqb_true_eq (a b : bool) : Bool.eqb a b = true -> a = b.
Proof. apply Bool.eqb_prop. Qed.

(** One step of [exact_trace], as facts about the values. *)
Lemma exact_trace_cons `{Arithmetic} remaining lot rest :
  exact_trace remaining (lot :: rest) = true ->
  exhausted remaining = Qle_bool (value remaining) EPS /\
  (exhausted remaining = false ->
   fits (inv_quantity lot) remaining
   = Qle_bool (inv_quantity lot) (value remaining + EPS) /\
   (fits (inv_quantity lot) remaining = true ->
    value (minus remaining (inv_quantity lot))
    == value remaining - inv_quantity lot /\
    exact_trace (minus remaining (inv_quantity lot)) rest = true)).
Proof.
  cbn [exact_trace]. intros Hex.
  apply andb_prop in Hex as [Hfirst Hex]. apply eqb_true_eq in Hfirst.
  split; [exact Hfirst|]. intros Hrem. rewrite Hrem in Hex.
  apply andb_prop in Hex as [Hsecond Hex]. apply eqb_true_eq in Hsecond.
  split; [exact Hsecond|]. intros Hfit. rewrite Hfit in Hex.
  apply andb_prop in Hex as [Hsub Hex]. apply Qeq_bool_iff in Hsub.
  now split.
Qed.

Lemma on_hand_total_cons lot lots :
  on_hand_total (lot :: lots) = inv_quantity lot + on_hand_total lots.
Proof. reflexivity. Qed.

(** With exact arithmetic the partial row sits where what is left of the
    target is above 1e-6 and too small for the lot by more than 1e-6. *)
Lemma exact_trace_partial `{Arithmetic} lots : forall remaining pre row post,
  exact_trace remaining lots = true ->
  greedy_rule remaining lots = pre ++ row :: post ->
  res_indicator row = 2%nat ->
  let rem := value remaining - on_hand_total (map lot_of pre) in
  EPS < rem /\ rem + EPS < res_original_quantity row
  /\ res_allocated_quantity row == rem.
Proof.
  induction lots as [|lot rest IH]; intros remaining pre row post Hex Hrows Hind.
  - now destruct pre.
  - apply exact_trace_cons in Hex as [Hfirst Hex].
    rewrite greedy_rule_step in Hrows.
    destruct (decide_lot_cases remaining (inv_quantity lot))
      as [[Hle E] | [(Hrem & Hfit & E) | (Hrem & Hbig & E)]];
      rewrite E in Hrows.
    + rewrite greedy_rule_exhausted in Hrows by exact Hle.
      assert (In row (map (fun lot => row_for lot 0 0) (lot :: rest))) as Hin.
      { cbn [map]. rewrite Hrows. apply in_elt. }
      apply zero_rows_indicator in Hin as [Hz _]. congruence.
    + destruct (Hex Hrem) as [_ Hnext].
      destruct (Hnext Hfit) as [Hsub Hrest].
      destruct pre as [|x pre]; simpl in Hrows.
      { injection Hrows as <- _. discriminate. }
      injection Hrows as <- Hrows.
      destruct (IH _ _ _ _ Hrest Hrows Hind) as (H1 & H2 & H3).
      cbn [map]. rewrite lot_of_row_for, on_hand_total_cons.
      cbv zeta. split; [lra|]. split; [lra|]. rewrite H3, Hsub. ring.
    + destruct (Hex Hrem) as [Hsecond _].
      rewrite Hrem in Hfirst. rewrite Hbig in Hsecond.
      symmetry in Hfirst, Hsecond.
      apply Qle_bool_false in Hfirst. apply Qle_bool_false in Hsecond.
      rewrite greedy_rule_exhausted in Hrows by apply exhausted_zero.
      destruct pre as [|x pre]; simpl in Hrows.
      * injection Hrows as <- <-. cbv zeta. simpl.
        unfold on_hand_total. simpl. split; [lra|]. split; [lra|]. ring.
      * injection Hrows as _ Hrows.
        assert (In row (map (fun lot => row_for lot 0 0) rest)) as Hin.
        { rewrite Hrows. apply in_elt. }
        apply zero_rows_indicator in Hin as [Hz _]. congruence.
Qed.

(** C4 (amended). At-most-one-partial: in the result of a run every item has
    at most one row of indicator 2.  When the rows a processed request
    appends hold one, the rows before it are the lots of smaller or equal
    quantity, all fully consumed, each met with a remaining target that
    passed the program's two tests ([remaining_target <= 0.000001] false,
    [qty <= remaining_target + 0.000001] true); the partial row is at the
    first lot at which the first test is false and the second fails, and it
    is allocated the remaining target; every row after it has indicator 0
    and allocated quantity 0.  When the arithmetic of the loop is exact on
    these lots, what is left of the target at the partial row, the target
    minus the quantities before it, is above 1e-6 and smaller than the lot's
    quantity by more than 1e-6. *)
Theorem at_most_one_partial `{Arithmetic} `{SortValues} :
  (forall df_adj df_inv df_result item,
     run df_adj df_inv = Result df_result ->
     (count_indicator 2 (rows_of_item item df_result) <= 1)%nat) /\
  (forall df_inv results processed_items row item_inv pre partial post,
     adj_item_number row ∉ processed_items ->
     get_group df_inv (adj_item_number row) = Some item_inv ->
     fst (process_request df_inv (results, processed_items) row)
     = results ++ pre ++ partial :: post ->
     res_indicator partial = 2%nat ->
     Forall (fun x => res_indicator x = 1%nat
                      /\ res_original_quantity x
                         <= res_original_quantity partial)
            pre /\
     Forall (fun x => res_indicator x = 0%nat /\ res_allocated_quantity x = 0)
            post /\
     (let r := remaining_after (start (adj_adjustment row)) (map lot_of pre) in
      exhausted r = false /\ fits (res_original_quantity partial) r = false
      /\ res_allocated_quantity partial = value r) /\
     (forall pre1 x pre2,
        pre = pre1 ++ x :: pre2 ->
        let r1 :=
          remaining_after (start (adj_adjustment row)) (map lot_of pre1) in
        exhausted r1 = false /\ fits (res_original_quantity x) r1 = true) /\
     (exact_run (adj_adjustment row) (sort_values (non_prd_rows_of item_inv))
      = true ->
      let rem := adj_adjustment row - on_hand_total (map lot_of pre) in
      EPS < rem /\ rem + EPS < res_original_quantity partial
      /\ res_allocated_quantity partial == rem)).
Proof.
  split.
  - intros df_adj df_inv df_result item Hrun.
    rewrite (count_indicator_perm _ _ _ (run_rows_of_item _ _ _ item Hrun)).
    destruct (first_request item df_adj) as [req|]; [|cbv; lia].
    unfold request_rows. destruct (get_group df_inv _); [|cbv; lia].
    apply item_rows_one_partial.
  - intros df_inv results processed_items req item_inv pre row post
           Hnew Hgroup Hrows Hind.
    rewrite (process_request_group _ _ _ _ _ Hnew Hgroup) in Hrows.
    cbn [fst] in Hrows. apply app_inv_head in Hrows.
    set (target := adj_adjustment req) in *.
    unfold item_rows in Hrows.
    set (ordered := sort_values (non_prd_rows_of item_inv)) in *.
    assert (forall x, In x (map (fun lot => row_for lot 0 0)
                                (prd_rows_of item_inv)) ->
                      res_indicator x = 0%nat /\ res_allocated_quantity x = 0)
      as Hzero by apply zero_rows_indicator.
    apply app_eq_app in Hrows as [l [[Hg Hz] | [Hp Hz]]].
    + destruct l as [|row' l].
      { simpl in Hz. destruct (Hzero row) as [E _]; [|congruence].
        rewrite <- Hz. now left. }
      injection Hz as  <- ->.
      destruct (greedy_rule_partial _ _ _ _ _ Hg Hind)
        as (_ & Hpre & Hpost & Hrow & Hfirst).
      assert (Sorted qty_le (map lot_of pre ++ lot_of row :: map lot_of l))
        as Hsorted.
      { change (lot_of row :: map lot_of l) with (map lot_of (row :: l)).
        rewrite <- map_app, <- Hg, greedy_rule_lots.
        apply sort_values_sorted. }
      apply sorted_before in Hsorted; [|apply qty_le_trans].
      split; [|split; [|split; [exact Hrow | split; [exact Hfirst|]]]].
      * rewrite List.Forall_forall in Hpre, Hsorted.
        apply List.Forall_forall. intros x Hx. split; [now apply Hpre|].
        apply (Hsorted (lot_of x)). now apply in_map.
      * apply Forall_app. split; [exact Hpost|].
        now apply List.Forall_forall.
      * intros Hexact. unfold exact_run in Hexact.
        apply andb_prop in Hexact as [Hstart Htrace].
        apply Qeq_bool_iff in Hstart.
        destruct (exact_trace_partial _ _ _ _ _ Htrace Hg Hind)
          as (H1 & H2 & H3).
        cbv zeta. split; [lra|]. split; [lra|]. rewrite H3, Hstart.
        reflexivity.
    + destruct (Hzero row) as [E _]; [|congruence].
      rewrite Hz. apply in_elt.
Qed.

Lemma at_most_one_partial_witness :
  (count_indicator 2
     (rows_of_item "A2"
        [mkRow "A2" None None 10 2 7; mkRow "A2" None None 5 1 5;
         mkRow "A2" None None 20 0 0]) <= 1)%nat /\
  @fits (python_arith PythonInt true) 10
    (@remaining_after (python_arith PythonInt true)
       (@start (python_arith PythonInt true) 12) [mkLot "A2" None None 5])
  = false /\
  12 - on_hand_total [mkLot "A2" None None 5] + EPS < 10.
Proof.
  destruct (@at_most_one_partial (python_arith PythonInt true) keep_ties_sort)
    as [Hcount Hshape].
  split.
  - apply (Hcount [mkAdj "A2" 12]
             [mkLot "A2" None None 20; mkLot "A2" None None 10;
              mkLot "A2" None None 5]).
    reflexivity.
  - destruct (Hshape [mkLot "A2" None None 20; mkLot "A2" None None 10;
                      mkLot "A2" None None 5]
                [] ∅ (mkAdj "A2" 12)
                [mkLot "A2" None None 20; mkLot "A2" None None 10;
                 mkLot "A2" None None 5]
                [mkRow "A2" None None 5 1 5]
                (mkRow "A2" None None 10 2 7)
                [mkRow "A2" None None 20 0 0])
      as (_ & _ & (_ & Hfits & _) & _ & Hexact);
      [apply not_elem_of_empty | reflexivity | reflexivity | reflexivity |].
    split; [exact Hfits|].
    destruct Hexact as (_ & Hsmall & _); [reflexivity | exact Hsmall].
Defined.

(** Target and lot both 9007199254740993 = 2^53 + 1, in integer columns: the
    sum [remaining_target + 0.000001] is the float 2^53, the lot is larger,
    and the row is partial although the remaining target equals the lot's
    quantity. *)
Lemma at_most_one_partial_counterexample :
  @run (python_arith PythonInt true) keep_ties_sort
    [mkAdj "A1" 9007199254740993] [mkLot "A1" None None 9007199254740993]
  = Result [mkRow "A1" None None 9007199254740993 2 9007199254740993] /\
  @value (python_arith PythonInt true)
    (@start (python_arith PythonInt true) 9007199254740993)
  = res_original_quantity
      (mkRow "A1" None None 9007199254740993 2 9007199254740993) /\
  ~ (@value (python_arith PythonInt true)
       (@start (python_arith PythonInt true) 9007199254740993)
     < res_original_quantity
         (mkRow "A1" None None 9007199254740993 2 9007199254740993)).
Proof.
  split; [reflexivity|]. split; [reflexivity|].
  intros Hlt. vm_compute in Hlt. discriminate.
Qed.

(** ** Rows with a negative allocation *)

Lemma greedy_rule_shape `{Arithmetic} lots : forall remaining row,
  In row (greedy_rule remaining lots) -> row_shape row.
Proof.
  induction lots as [|lot rest IH]; intros remaining row; [easy|].
  rewrite greedy_rule_step.
  destruct (decide_lot_cases remaining (inv_quantity lot))
    as [[Hle E] | [(Hrem & Hfit & E) | (Hrem & Hbig & E)]]; rewrite E;
    (intros [<-|Hin]; [|now apply IH in Hin]); unfold row_shape; simpl.
  - now left.
  - right. now left.
  - right. right. split; [reflexivity|]. now apply value_not_negative.
Qed.

Lemma item_rows_shape `{Arithmetic} `{SortValues} target item_inv row :
  In row (item_rows target item_inv) -> row_shape row.
Proof.
  unfold item_rows. intros Hin. apply in_app_or in Hin as [Hin|Hin].
  - now apply greedy_rule_shape in Hin.
  - left. now apply zero_rows_indicator in Hin.
Qed.

(** C8 (amended). The processing checks no invariant of the rows it builds
    and aborts on none: every row collected is in the result of the run.
    Every row of a result is untouched (indicator 0, allocated 0), fully
    consumed (indicator 1, allocated the lot's quantity) or partial
    (indicator 2, allocated the remaining target, which is not negative), so
    a negative allocated quantity is in the output exactly as the full
    consumption of a lot of negative quantity. *)
Theorem negative_allocation_only_from_negative_lot `{Arithmetic} `{SortValues}
    df_adj df_inv :
  (forall row,
     In row (fst (collect df_adj df_inv)) ->
     exists df_result,
       run df_adj df_inv = Result df_result /\ In row df_result) /\
  (forall df_result row,
     run df_adj df_inv = Result df_result -> In row df_result ->
     row_shape row /\
     (res_allocated_quantity row < 0 ->
      res_indicator row = 1%nat
      /\ res_allocated_quantity row = res_original_quantity row
      /\ res_original_quantity row < 0)).
Proof.
  split.
  - intros row Hin. unfold run.
    destruct (fst (collect df_adj df_inv)) as [|row0 results] eqn:E; [easy|].
    exists (sort_result (row0 :: results)). split; [reflexivity|].
    eapply Permutation_in; [apply sort_result_perm | exact Hin].
  - intros df_result row Hrun Hin.
    apply (run_row_origin _ _ _ _ Hrun) in Hin
      as (req & item_inv & _ & _ & Hin).
    apply item_rows_shape in Hin as Hshape. split; [exact Hshape|].
    intros Hneg.
    destruct Hshape as [[_ E] | [[Hind E] | [_ Hpos]]].
    + rewrite E in Hneg. lra.
    + split; [exact Hind|]. split; [exact E|]. now rewrite <- E.
    + lra.
Qed.

Lemma negative_allocation_only_from_negative_lot_witness :
  res_indicator (mkRow "A1" None None (-3) 1 (-3)) = 1%nat /\
  res_original_quantity (mkRow "A1" None None (-3) 1 (-3)) < 0.
Proof.
  destruct (@negative_allocation_only_from_negative_lot
              (python_arith PythonInt true) keep_ties_sort
              [mkAdj "A1" 5] [mkLot "A1" None None (-3)]) as [_ Hrows].
  destruct (Hrows [mkRow "A1" None None (-3) 1 (-3)]
              (mkRow "A1" None None (-3) 1 (-3)))
    as [_ Hneg]; [reflexivity | simpl; tauto |].
  destruct Hneg as (Hind & _ & Horig); [reflexivity|]. now split.
Defined.

(** A lot of negative quantity met with a positive target: the row with the
    negative allocation is in the result, the run is not aborted. *)
Lemma negative_allocation_counterexample :
  @run (python_arith PythonInt true) keep_ties_sort
    [mkAdj "A1" 5] [mkLot "A1" None None (-3)]
  = Result [mkRow "A1" None None (-3) 1 (-3)] /\
  res_allocated_quantity (mkRow "A1" None None (-3) 1 (-3)) < 0.
Proof. split; reflexivity. Qed.

(** ** Duplicate requests *)

Lemma collect_app `{Arithmetic} `{SortValues} df_inv pre post :
  collect (pre ++ post) df_inv
  = fold_left (process_request df_inv) post (collect pre df_inv).
Proof. unfold collect. apply fold_left_app. Qed.

Lemma collect_seen `{Arithmetic} `{SortValues} df_adj df_inv :
  snd (collect df_adj df_inv) = list_to_set (map adj_item_number df_adj).
Proof.
  unfold collect. rewrite fold_process_request. simpl. set_solver.
Qed.

Lemma first_occurrences_first df_adj : forall seen req,
  In req (first_occurrences seen df_adj) ->
  (adj_item_number req ∉ seen) /\
  exists pre post,
    df_adj = pre ++ req :: post
    /\ ~ In (adj_item_number req) (map adj_item_number pre).
Proof.
  induction df_adj as [|r rest IH]; intros seen req; [easy|].
  cbn [first_occurrences].
  destruct (decide (adj_item_number r ∈ seen)) as [Hseen|Hfresh].
  - rewrite bool_decide_eq_true_2 by exact Hseen. intros Hin.
    destruct (IH _ _ Hin) as (Hnew & pre & post & -> & Hpre).
    split; [exact Hnew|]. exists (r :: pre), post. split; [reflexivity|].
    simpl. intros [E|Hin']; [congruence | contradiction].
  - rewrite bool_decide_eq_false_2 by exact Hfresh. intros [<-|Hin].
    + split; [exact Hfresh|]. exists [], rest. split; [reflexivity | easy].
    + destruct (IH _ _ Hin) as (Hnew & pre & post & -> & Hpre).
      split; [set_solver|]. exists (r :: pre), post. split; [reflexivity|].
      simpl. intros [E|Hin']; [|contradiction].
      apply Hnew. rewrite <- E. set_solver.
Qed.

(** C9. Duplicate requests: the rows collected are those of the honoured
    requests, taken in input order, and a request is honoured only if no
    earlier request has its item; a request whose item occurred in an earlier
    request changes neither the collected rows nor the set of processed
    items, so the run with it is the run without it: it adds no row and
    raises no error. *)
Theorem duplicate_request_ignored `{Arithmetic} `{SortValues} :
  (forall df_adj df_inv,
     fst (collect df_adj df_inv)
     = flat_map (request_rows df_inv) (first_occurrences ∅ df_adj) /\
     forall req,
       In req (first_occurrences ∅ df_adj) ->
       exists pre post,
         df_adj = pre ++ req :: post
         /\ ~ In (adj_item_number req) (map adj_item_number pre)) /\
  (forall df_inv pre dup post,
     In (adj_item_number dup) (map adj_item_number pre) ->
     collect (pre ++ dup :: post) df_inv = collect (pre ++ post) df_inv /\
     run (pre ++ dup :: post) df_inv = run (pre ++ post) df_inv).
Proof.
  split.
  { intros df_adj df_inv. split; [apply collect_rows|].
    intros req Hin. now apply first_occurrences_first in Hin as [_ Hfirst]. }
  intros df_inv pre dup post Hdup.
  assert (collect (pre ++ dup :: post) df_inv = collect (pre ++ post) df_inv)
    as Hsame.
  { rewrite !collect_app. cbn [fold_left]. f_equal.
    pose proof (collect_seen pre df_inv) as Hseen.
    destruct (collect pre df_inv) as [results seen]. simpl in Hseen.
    apply process_request_seen. rewrite Hseen.
    apply elem_of_list_to_set, list_elem_of_In. exact Hdup. }
  split; [exact Hsame|]. unfold run. now rewrite Hsame.
Qed.

Lemma duplicate_request_ignored_witness :
  @run (python_arith PythonInt true) keep_ties_sort
      ([mkAdj "A2" 12] ++ mkAdj "A2" 100 :: [mkAdj "B" 1])
       [mkLot "A2" None None 10; mkLot "A2" None None 5]
  = Result [mkRow "A2" None None 10 2 7; mkRow "A2" None None 5 1 5].
Proof.
  destruct (@duplicate_request_ignored
      (python_arith PythonInt true) keep_ties_sort) as [_ Hdup].
  destruct (Hdup [mkLot "A2" None None 10; mkLot "A2" None None 5]
              [mkAdj "A2" 12] (mkAdj "A2" 100) [mkAdj "B" 1]) as [_ Hrun].
  - simpl. tauto.
  - rewrite Hrun. reflexivity.
Defined.

(** ** The presentation order *)

Lemma string_compare_spec a b :
  CompareSpec (a = b) (String_as_OT.lt a b) (String_as_OT.lt b a)
              (String.compare a b).
Proof.
  destruct (String.compare a b) eqn:E; constructor.
  - now apply String_as_OT.cmp_eq.
  - now apply String_as_OT.cmp_lt.
  - apply String_as_OT.cmp_lt. unfold String_as_OT.cmp.
    rewrite String.compare_antisym, E. reflexivity.
Qed.

Lemma string_lt_irrefl a : ~ String_as_OT.lt a a.
Proof.
  intros H. apply String_as_OT.lt_not_eq in H. apply H. reflexivity.
Qed.

Lemma string_lt_asym a b : String_as_OT.lt a b -> ~ String_as_OT.lt b a.
Proof.
  intros H1 H2. apply (string_lt_irrefl a).
  now apply (String_as_OT.lt_trans a b a).
Qed.

Lemma result_leb_spec a b : result_leb a b = true <-> presentation_le a b.
Proof.
  unfold result_leb, presentation_le.
  destruct (string_compare_spec (res_item_number a) (res_item_number b))
    as [E|Hlt|Hgt].
  - destruct (Nat.compare_spec (res_indicator b) (res_indicator a))
      as [Ei|Hi|Hi].
    + rewrite Qle_bool_iff. split.
      * intros Hq. right. auto.
      * intros [Hlt | (_ & [Hi | [_ Hq]])]; [|lia|exact Hq].
        rewrite E in Hlt. now apply string_lt_irrefl in Hlt.
    + split; [intros _; right; auto | reflexivity].
    + split; [discriminate|].
      intros [Hlt | (_ & [Hi' | [Ei _]])]; [|lia|lia].
      rewrite E in Hlt. now apply string_lt_irrefl in Hlt.
  - split; [intros _; now left | reflexivity].
  - split; [discriminate|].
    intros [Hlt | (E & _)].
    + now apply string_lt_asym in Hlt.
    + rewrite E in Hgt. now apply string_lt_irrefl in Hgt.
Qed.

Lemma presentation_le_total a b :
  result_leb a b = false -> presentation_le b a.
Proof.
  intros Hf. assert (~ presentation_le a b) as Hn.
  { rewrite <- result_leb_spec, Hf. discriminate. }
  unfold presentation_le in *.
  destruct (string_compare_spec (res_item_number a) (res_item_number b))
    as [E|Hlt|Hgt]; [| tauto | now left].
  right. split; [now symmetry|].
  destruct (Nat.compare_spec (res_indicator b) (res_indicator a))
    as [Ei|Hi|Hi]; [| tauto | now left].
  right. split; [exact Ei|].
  destruct (Qlt_le_dec (res_original_quantity b) (res_original_quantity a))
    as [Hq|Hq]; [now apply Qlt_le_weak|].
  exfalso. apply Hn. right. split; [exact E|]. right. split; [now symmetry|].
  exact Hq.
Qed.

Lemma insert_result_sorted x l :
  Sorted presentation_le l -> Sorted presentation_le (insert_result x l).
Proof.
  induction 1 as [|y l Hl IH Hhd]; simpl.
  - repeat constructor.
  - destruct (result_leb x y) eqn:E.
    + constructor; [now constructor|]. constructor. now apply result_leb_spec.
    + constructor; [exact IH|].
      destruct l as [|z l]; simpl.
      * constructor. now apply presentation_le_total.
      * destruct (result_leb x z).
        -- constructor. now apply presentation_le_total.
        -- constructor. now inversion Hhd.
Qed.

Lemma sort_result_sorted results : Sorted presentation_le (sort_result results).
Proof.
  induction results as [|x results IH]; simpl; [constructor|].
  now apply insert_result_sorted.
Qed.

Lemma presentation_le_trans : Transitive presentation_le.
Proof.
  intros a b c [Hab | (Eab & Hab)] [Hbc | (Ebc & Hbc)].
  - left. now apply (String_as_OT.lt_trans _ (res_item_number b)).
  - left. now rewrite <- Ebc.
  - left. now rewrite Eab.
  - right. split; [congruence|].
    destruct Hab as [Hi | [Ei Hq]], Hbc as [Hi' | [Ei' Hq']].
    + left. lia.
    + left. lia.
    + left. lia.
    + right. split; [lia | lra].
Qed.

Lemma same_key_leb k x y :
  same_key k x = true -> same_key k y = true -> result_leb x y = true.
Proof.
  unfold same_key. rewrite !andb_true_iff, !String.eqb_eq, !Nat.eqb_eq.
  rewrite !Qeq_bool_iff. intros [[Ex Eix] Eqx] [[Ey Eiy] Eqy].
  apply result_leb_spec. right. split; [congruence|]. right.
  split; [congruence|]. rewrite Eqx, Eqy. apply Qle_refl.
Qed.

Lemma insert_result_filter k x l :
  List.filter (same_key k) (insert_result x l)
  = List.filter (same_key k) (x :: l).
Proof.
  induction l as [|y l IH]; [reflexivity|].
  cbn [insert_result]. destruct (result_leb x y) eqn:E; [reflexivity|].
  cbn [List.filter] in *. rewrite IH.
  destruct (same_key k x) eqn:Ex, (same_key k y) eqn:Ey; try reflexivity.
  rewrite (same_key_leb k x y Ex Ey) in E. discriminate.
Qed.

Lemma sort_result_stable results :
  keeps_append_order results (sort_result results).
Proof.
  intros k. induction results as [|x results IH]; [reflexivity|].
  cbn [sort_result fold_right]. rewrite insert_result_filter.
  cbn [List.filter]. fold (sort_result results). now rewrite IH.
Qed.

(** C7. Assembler ordering: the result of a run holds the collected rows,
    sorted by item ascending, then indicator descending, then original
    quantity ascending, and rows with equal keys are in the order in which
    they were appended. *)
Theorem assembler_ordering `{Arithmetic} `{SortValues} df_adj df_inv df_result :
  run df_adj df_inv = Result df_result ->
  let results := fst (collect df_adj df_inv) in
  Permutation results df_result /\
  StronglySorted presentation_le df_result /\
  keeps_append_order results df_result.
Proof.
  intros Hrun results. apply run_Result in Hrun as [-> _]. fold results.
  split; [apply sort_result_perm|].
  split; [|apply sort_result_stable].
  apply Sorted_StronglySorted; [apply presentation_le_trans|].
  apply sort_result_sorted.
Qed.

Lemma assembler_ordering_witness :
  StronglySorted presentation_le
    [mkRow "A1" None None 5 1 5; mkRow "A1" None None 20 0 0;
     mkRow "B7" None None 4 2 3; mkRow "B7" None None 9 0 0;
     mkRow "B7" (Some "PRD"%string) None 9 0 0].
Proof.
  apply (@assembler_ordering (python_arith PythonInt true) keep_ties_sort
           [mkAdj "B7" 3; mkAdj "A1" 5]
           [mkLot "B7" (Some "PRD"%string) None 9; mkLot "A1" None None 20;
            mkLot "B7" None None 9; mkLot "A1" None None 5;
            mkLot "B7" None None 4]).
  reflexivity.
Defined.

(** ** Further properties of the run *)

Lemma first_request_Some item df_adj req :
  first_request item df_adj = Some req ->
  In req df_adj /\ adj_item_number req = item.
Proof.
  intros Hfind. apply find_some in Hfind as [Hin E].
  split; [exact Hin | now apply String.eqb_eq].
Qed.

Lemma get_group_lots df_inv item :
  match get_group df_inv item with
  | Some item_inv => item_inv
  | None => []
  end = lots_of_item item df_inv.
Proof.
  unfold get_group, lots_of_item. now destruct (List.filter _ df_inv).
Qed.

Lemma request_rows_lots `{Arithmetic} `{SortValues} df_inv req :
  Permutation (map lot_of (request_rows df_inv req))
              (lots_of_item (adj_item_number req) df_inv).
Proof.
  rewrite <- get_group_lots. unfold request_rows.
  destruct (get_group df_inv (adj_item_number req)); [|constructor].
  apply item_rows_lots_all.
Qed.

Lemma flat_map_lots `{Arithmetic} `{SortValues} df_inv reqs :
  Permutation (map lot_of (flat_map (request_rows df_inv) reqs))
              (flat_map (fun req => lots_of_item (adj_item_number req) df_inv)
                        reqs).
Proof.
  induction reqs as [|req reqs IH]; [constructor|].
  cbn [flat_map]. rewrite map_app. apply Permutation_app; [|exact IH].
  apply request_rows_lots.
Qed.

(** The honoured request of a lot's item, if any, picks the lot once. *)
Lemma first_occurrences_hits lot df_adj : forall seen,
  flat_map (fun req =>
              if String.eqb (inv_item_number lot) (adj_item_number req)
              then [lot] else [])
           (first_occurrences seen df_adj)
  = if bool_decide (inv_item_number lot ∈ seen) then []
    else if requested df_adj lot then [lot] else [].
Proof.
  induction df_adj as [|r rest IH]; intros seen.
  - simpl. now destruct (bool_decide _).
  - cbn [first_occurrences requested existsb]. fold (requested rest lot).
    destruct (decide (adj_item_number r ∈ seen)) as [Hseen|Hfresh].
    + rewrite (bool_decide_eq_true_2 _ Hseen), IH.
      destruct (decide (inv_item_number lot ∈ seen)) as [Hlot|Hlot].
      * now rewrite (bool_decide_eq_true_2 _ Hlot).
      * rewrite (bool_decide_eq_false_2 _ Hlot).
        destruct (String.eqb_spec (inv_item_number lot) (adj_item_number r))
          as [E|NE]; [congruence | reflexivity].
    + rewrite (bool_decide_eq_false_2 _ Hfresh). cbn [flat_map]. rewrite IH.
      destruct (String.eqb_spec (inv_item_number lot) (adj_item_number r))
        as [E|NE].
      * rewrite bool_decide_eq_true_2 by (rewrite E; set_solver).
        rewrite bool_decide_eq_false_2 by congruence. reflexivity.
      * destruct (decide (inv_item_number lot ∈ seen)) as [Hlot|Hlot].
        -- rewrite (bool_decide_eq_true_2 _ Hlot).
           now rewrite bool_decide_eq_true_2 by set_solver.
        -- rewrite (bool_decide_eq_false_2 _ Hlot).
           now rewrite bool_decide_eq_false_2 by set_solver.
Qed.

Lemma flat_map_split {A B} (f g : A -> list B) (l : list A) :
  Permutation (flat_map (fun a => f a ++ g a) l)
              (flat_map f l ++ flat_map g l).
Proof.
  induction l as [|a l IH]; [constructor|].
  cbn [flat_map]. rewrite IH, <- !app_assoc. apply Permutation_app_head.
  rewrite !app_assoc. apply Permutation_app_tail. apply Permutation_app_comm.
Qed.

Lemma flat_map_nil {A B} (l : list A) :
  flat_map (fun _ : A => @nil B) l = [].
Proof. induction l as [|a l IH]; [reflexivity | exact IH]. Qed.

Lemma honoured_lots df_adj df_inv :
  Permutation
    (flat_map (fun req => lots_of_item (adj_item_number req) df_inv)
              (first_occurrences ∅ df_adj))
    (List.filter (requested df_adj) df_inv).
Proof.
  induction df_inv as [|lot df_inv IH].
  - unfold lots_of_item. simpl. now rewrite flat_map_nil.
  - unfold lots_of_item in *. cbn [List.filter].
    rewrite (flat_map_ext _
               (fun req =>
                  (if String.eqb (inv_item_number lot) (adj_item_number req)
                   then [lot] else [])
                  ++ List.filter
                       (fun r => String.eqb (inv_item_number r)
                                            (adj_item_number req)) df_inv))
      by (intros req; now destruct (String.eqb _ _)).
    rewrite flat_map_split, first_occurrences_hits, IH.
    rewrite bool_decide_eq_false_2 by set_solver.
    now destruct (requested df_adj lot).
Qed.

Lemma collect_lots `{Arithmetic} `{SortValues} df_adj df_inv :
  Permutation (map lot_of (fst (collect df_adj df_inv)))
              (List.filter (requested df_adj) df_inv).
Proof. rewrite collect_rows, flat_map_lots. apply honoured_lots. Qed.

(** X1. Every inventory lot of a requested item is echoed by exactly one row
    of the result (item, location, batch and quantity), no other lot is, and
    the number of rows reported is the number of such lots. *)
Theorem result_echoes_requested_lots `{Arithmetic} `{SortValues}
    df_adj df_inv df_result :
  run df_adj df_inv = Result df_result ->
  Permutation (map lot_of df_result) (List.filter (requested df_adj) df_inv)
  /\ length df_result = length (List.filter (requested df_adj) df_inv).
Proof.
  intros Hrun. apply run_Result in Hrun as [-> _].
  assert (Permutation (map lot_of (sort_result (fst (collect df_adj df_inv))))
                      (List.filter (requested df_adj) df_inv)) as Hperm.
  { rewrite <- collect_lots. apply Permutation_map. symmetry.
    apply sort_result_perm. }
  split; [exact Hperm|].
  apply Permutation_length in Hperm. now rewrite length_map in Hperm.
Qed.

Lemma result_echoes_requested_lots_witness :
  length [mkRow "A2" None None 10 2 7; mkRow "A2" None None 5 1 5]
  = length (List.filter (requested [mkAdj "A2" 12; mkAdj "Z9" 1])
              [mkLot "A2" None None 10; mkLot "B4" None None 7;
               mkLot "A2" None None 5]).
Proof.
  apply (@result_echoes_requested_lots (python_arith PythonInt true) keep_ties_sort
           [mkAdj "A2" 12; mkAdj "Z9" 1]
           [mkLot "A2" None None 10; mkLot "B4" None None 7;
            mkLot "A2" None None 5]).
  reflexivity.
Defined.

(** X2. The run ends in the error outcome exactly when no inventory lot
    belongs to a requested item; in particular with no request at all and
    with an empty inventory. *)
Theorem error_iff_nothing_requested `{Arithmetic} `{SortValues} df_adj df_inv :
  (run df_adj df_inv = ErrorOccurred
   <-> forall lot, In lot df_inv -> requested df_adj lot = false) /\
  run [] df_inv = ErrorOccurred /\
  run df_adj [] = ErrorOccurred.
Proof.
  assert (forall adj inv,
            run adj inv = ErrorOccurred
            <-> forall lot, In lot inv -> requested adj lot = false) as Hiff.
  { intros adj inv. pose proof (collect_lots adj inv) as Hperm.
    unfold run. split.
    - destruct (fst (collect adj inv)) as [|row rows]; [|discriminate].
      intros _ lot Hin. apply Permutation_nil in Hperm.
      destruct (requested adj lot) eqn:E; [|reflexivity].
      assert (In lot (List.filter (requested adj) inv)) as Hf
        by (apply filter_In; now split).
      rewrite Hperm in Hf. contradiction.
    - intros Hnone. rewrite (filter_nil_all _ _ Hnone) in Hperm.
      apply Permutation_sym, Permutation_nil in Hperm.
      apply map_eq_nil in Hperm. now rewrite Hperm. }
  split; [apply Hiff|]. split; apply Hiff; [reflexivity | easy].
Qed.

Lemma error_iff_nothing_requested_witness :
  @run (python_arith PythonInt true) keep_ties_sort
      [mkAdj "A9" 12] [mkLot "A2" None None 5] = ErrorOccurred.
Proof.
  apply (proj1 (@error_iff_nothing_requested
      (python_arith PythonInt true) keep_ties_sort
                  [mkAdj "A9" 12] [mkLot "A2" None None 5])).
  intros lot [<-|[]]. reflexivity.
Defined.

Lemma insert_result_head x l :
  HdRel presentation_le x l -> insert_result x l = x :: l.
Proof.
  intros [|y l' Hxy]; [reflexivity|].
  simpl. apply result_leb_spec in Hxy. now rewrite Hxy.
Qed.

Lemma sort_result_sorted_id l :
  Sorted presentation_le l -> sort_result l = l.
Proof.
  induction 1 as [|x l Hs IH Hhd]; [reflexivity|].
  cbn [sort_result fold_right]. fold (sort_result l). rewrite IH.
  now apply insert_result_head.
Qed.

(** X4. Sorting again a table that is in presentation order changes nothing:
    the presentation sort is idempotent, and the result of a run is a fixed
    point of it. *)
Theorem presentation_sort_idempotent `{Arithmetic} `{SortValues} :
  (forall results, sort_result (sort_result results) = sort_result results) /\
  (forall rows, Sorted presentation_le rows -> sort_result rows = rows) /\
  (forall df_adj df_inv df_result,
     run df_adj df_inv = Result df_result -> sort_result df_result = df_result).
Proof.
  split; [|split].
  - intros results. apply sort_result_sorted_id, sort_result_sorted.
  - apply sort_result_sorted_id.
  - intros df_adj df_inv df_result Hrun. apply run_Result in Hrun as [-> _].
    apply sort_result_sorted_id, sort_result_sorted.
Qed.

Lemma presentation_sort_idempotent_witness :
  sort_result [mkRow "A2" None None 10 2 7; mkRow "A2" None None 5 1 5]
  = [mkRow "A2" None None 10 2 7; mkRow "A2" None None 5 1 5].
Proof.
  destruct (@presentation_sort_idempotent
      (python_arith PythonInt true) keep_ties_sort) as (_ & _ & Hrun).
  apply (Hrun [mkAdj "A2" 12]
              [mkLot "A2" None None 10; mkLot "A2" None None 5]).
  reflexivity.
Defined.

Lemma insert_result_all_le x l :
  Forall (presentation_le x) l -> insert_result x l = x :: l.
Proof.
  intros Hall. apply insert_result_head.
  destruct Hall; constructor. assumption.
Qed.

(** Filtering commutes with the insertion into a sorted table. *)
Lemma filter_insert_result (f : ResultRow -> bool) x l :
  StronglySorted presentation_le l ->
  List.filter f (insert_result x l)
  = if f x then insert_result x (List.filter f l) else List.filter f l.
Proof.
  induction 1 as [|y l Hs IH Hall]; [simpl; now destruct (f x)|].
  cbn [insert_result]. destruct (result_leb x y) eqn:E.
  - cbn [List.filter]. destruct (f x); [|reflexivity].
    symmetry. apply insert_result_all_le.
    apply result_leb_spec in E.
    assert (Forall (presentation_le x) (y :: l)) as Hall'.
    { constructor; [exact E|]. eapply List.Forall_impl; [|exact Hall].
      intros z Hz. now apply (presentation_le_trans x y z). }
    rewrite List.Forall_forall in Hall'. apply List.Forall_forall.
    intros z Hz. apply Hall'.
    change (In z (List.filter f (y :: l))) in Hz.
    now apply filter_In in Hz as [Hz _].
  - cbn [List.filter]. rewrite IH.
    destruct (f x), (f y); try reflexivity.
    cbn [insert_result]. now rewrite E.
Qed.

Lemma filter_sort_result (f : ResultRow -> bool) l :
  List.filter f (sort_result l) = sort_result (List.filter f l).
Proof.
  induction l as [|x l IH]; [reflexivity|].
  cbn [sort_result fold_right List.filter]. fold (sort_result l).
  rewrite filter_insert_result.
  - rewrite IH. now destruct (f x).
  - apply Sorted_StronglySorted; [apply presentation_le_trans|].
    apply sort_result_sorted.
Qed.

Lemma request_rows_alone `{Arithmetic} `{SortValues} df_inv req :
  fst (process_request df_inv ([], ∅) req) = request_rows df_inv req.
Proof.
  rewrite process_request_rows.
  now rewrite bool_decide_eq_false_2 by set_solver.
Qed.

Lemma get_group_same_lots df_inv df_inv' item :
  lots_of_item item df_inv = lots_of_item item df_inv' ->
  get_group df_inv item = get_group df_inv' item.
Proof. unfold lots_of_item, get_group. now intros ->. Qed.

(** X3. Items do not interact: the rows of an item in the result of a run,
    in their order, are the rows its first request yields when processed
    alone, put in presentation order; an item without a request has no rows;
    and two runs that agree on the first request of an item and on the
    inventory lots of that item give the item the same rows. *)
Theorem item_rows_independent `{Arithmetic} `{SortValues}
    df_adj df_inv df_result item :
  run df_adj df_inv = Result df_result ->
  rows_of_item item df_result
  = match first_request item df_adj with
    | Some req => sort_result (fst (process_request df_inv ([], ∅) req))
    | None => []
    end /\
  forall df_adj' df_inv' df_result',
    run df_adj' df_inv' = Result df_result' ->
    first_request item df_adj' = first_request item df_adj ->
    lots_of_item item df_inv' = lots_of_item item df_inv ->
    rows_of_item item df_result' = rows_of_item item df_result.
Proof.
  assert (forall adj inv df,
            run adj inv = Result df ->
            rows_of_item item df
            = match first_request item adj with
              | Some req => sort_result (request_rows inv req)
              | None => []
              end) as Hrows.
  { intros adj inv df Hrun. apply run_Result in Hrun as [-> _].
    unfold rows_of_item. rewrite filter_sort_result.
    fold (rows_of_item item (fst (collect adj inv))).
    rewrite collect_rows, rows_of_item_first by set_solver.
    now destruct (first_request item adj). }
  intros Hrun. split.
  - rewrite (Hrows _ _ _ Hrun).
    destruct (first_request item df_adj); [|reflexivity].
    now rewrite request_rows_alone.
  - intros df_adj' df_inv' df_result' Hrun' Hfirst Hlots.
    rewrite (Hrows _ _ _ Hrun), (Hrows _ _ _ Hrun'), Hfirst.
    destruct (first_request item df_adj) as [req|] eqn:E; [|reflexivity].
    apply first_request_Some in E as [_ <-].
    unfold request_rows. now rewrite (get_group_same_lots _ _ _ Hlots).
Qed.

Lemma item_rows_independent_witness :
  rows_of_item "A2"
    [mkRow "A2" None None 10 2 7; mkRow "A2" None None 5 1 5;
     mkRow "B4" None None 7 2 1]
  = rows_of_item "A2"
      [mkRow "A2" None None 10 2 7; mkRow "A2" None None 5 1 5].
Proof.
  destruct (@item_rows_independent (python_arith PythonInt true) keep_ties_sort
              [mkAdj "A2" 12]
              [mkLot "A2" None None 10; mkLot "A2" None None 5]
              [mkRow "A2" None None 10 2 7; mkRow "A2" None None 5 1 5]
              "A2" eq_refl) as [_ Hsame].
  apply (Hsame [mkAdj "B4" 1; mkAdj "A2" 12; mkAdj "A2" 3]
               [mkLot "B4" None None 7; mkLot "A2" None None 10;
                mkLot "A2" None None 5]);
    reflexivity.
Defined.

Lemma upper_app (a b : string) :
  upper (a ++ b) = (upper a ++ upper b)%string.
Proof.
  induction a as [|c a IH]; [reflexivity|]. simpl. now rewrite IH.
Qed.

Lemma upper_app_inv (a : string) : forall s b,
  upper s = (a ++ b)%string ->
  exists s1 s2, s = (s1 ++ s2)%string /\ upper s1 = a /\ upper s2 = b.
Proof.
  induction a as [|c a IH]; intros s b Hs.
  - now exists EmptyString, s.
  - destruct s as [|d s]; [discriminate|].
    simpl in Hs. injection Hs as Hc Hs.
    destruct (IH _ _ Hs) as (s1 & s2 & -> & H1 & H2).
    exists (String d s1), s2. simpl. now rewrite Hc, H1.
Qed.

(** X8. The PRD test is unanchored and blind to letter case: a location is
    excluded exactly when its text, as written, contains three consecutive
    characters that upper-case to "PRD". *)
Theorem is_prd_any_case_anywhere (s : string) :
  is_prd (Some s) = true <->
  exists pre x post,
    s = (pre ++ x ++ post)%string /\ upper x = "PRD"%string.
Proof.
  unfold is_prd. rewrite str_in_app. split.
  - intros (p & q & Hs).
    apply upper_app_inv in Hs as (pre & rest & -> & _ & Hrest).
    apply upper_app_inv in Hrest as (x & post & -> & Hx & _).
    now exists pre, x, post.
  - intros (pre & x & post & -> & Hx).
    exists (upper pre), (upper post). now rewrite !upper_app, Hx.
Qed.

Lemma is_prd_any_case_anywhere_witness :
  is_prd (Some "Uprdate-3"%string) = true.
Proof.
  apply (proj2 (is_prd_any_case_anywhere "Uprdate-3")).
  exists "U"%string, "prd"%string, "ate-3"%string. split; reflexivity.
Defined.

(** ** The rule in exact arithmetic

    The comparisons and the subtraction carried out on the values
    themselves.  This is not the arithmetic of the program: it is what
    [exact_trace] compares the program's arithmetic with, and the lemmas of
    this section are carried over to the runs of the program that pass that
    check. *)
Lemma ideal_exhausted_start (t : Q) : t <= 0 -> Qle_bool t EPS = true.
Proof. intros Ht. apply Qle_bool_iff. pose proof EPS_pos. lra. Qed.

Lemma ideal_value_not_negative (r : Q) : Qle_bool r EPS = false -> 0 <= r.
Proof. intros Hr. apply Qle_bool_false in Hr. pose proof EPS_pos. lra. Qed.

Definition ideal_arith : Arithmetic := {|
  num := Q;
  start := fun t => t;
  exhausted := fun r => Qle_bool r EPS;
  fits := fun qty r => Qle_bool qty (r + EPS);
  minus := fun r qty => r - qty;
  zero := 0;
  value := fun r => r;
  exhausted_zero := eq_refl;
  exhausted_start := ideal_exhausted_start;
  value_not_negative := ideal_value_not_negative
|}.

Section Ideal.

#[local] Existing Instance ideal_arith.

Lemma ideal_rule_exhausted lots : forall remaining : Q,
  remaining <= EPS ->
  greedy_rule remaining lots = map (fun lot => row_for lot 0 0) lots.
Proof.
  intros remaining Hle. apply greedy_rule_exhausted.
  now apply Qle_bool_iff.
Qed.

Lemma ideal_lot_exhausted remaining qty :
  remaining <= EPS -> decide_lot remaining qty = (0%nat, 0, remaining).
Proof.
  intros Hle. unfold decide_lot. cbn. apply Qle_bool_iff in Hle.
  now rewrite Hle.
Qed.

Lemma ideal_lot_full remaining qty :
  EPS < remaining -> qty <= remaining + EPS ->
  decide_lot remaining qty = (1%nat, qty, remaining - qty).
Proof.
  intros Hrem Hfit. unfold decide_lot. cbn.
  apply Qle_bool_false in Hrem. apply Qle_bool_iff in Hfit.
  now rewrite Hrem, Hfit.
Qed.

Lemma ideal_lot_partial remaining qty :
  EPS < remaining -> remaining + EPS < qty ->
  decide_lot remaining qty = (2%nat, remaining, 0).
Proof.
  intros Hrem Hbig. unfold decide_lot. cbn.
  apply Qle_bool_false in Hrem. apply Qle_bool_false in Hbig.
  now rewrite Hrem, Hbig.
Qed.

(** The three cases of the rule, as a case analysis for proofs. *)
Lemma ideal_lot_cases remaining qty :
  (remaining <= EPS /\ decide_lot remaining qty = (0%nat, 0, remaining)) \/
  (EPS < remaining /\ qty <= remaining + EPS
   /\ decide_lot remaining qty = (1%nat, qty, remaining - qty)) \/
  (EPS < remaining /\ remaining + EPS < qty
   /\ decide_lot remaining qty = (2%nat, remaining, 0)).
Proof.
  destruct (Qlt_le_dec EPS remaining) as [Hrem|Hrem].
  - right. destruct (Qlt_le_dec (remaining + EPS) qty) as [Hbig|Hfit].
    + right. auto using ideal_lot_partial.
    + left. auto using ideal_lot_full.
  - left. auto using ideal_lot_exhausted.
Qed.

Lemma Qsum_app l1 l2 : Qsum (l1 ++ l2) == Qsum l1 + Qsum l2.
Proof.
  induction l1 as [|x l1 IH]; simpl; [ring|]. rewrite IH. ring.
Qed.

Lemma Qsum_perm l l' : Permutation l l' -> Qsum l == Qsum l'.
Proof.
  induction 1 as [|x l l' Hp IH|x y l|l l' l'' Hp1 IH1 Hp2 IH2]; simpl.
  - reflexivity.
  - now rewrite IH.
  - ring.
  - now rewrite IH1.
Qed.

Lemma Qsum_nonneg l : Forall (fun x => 0 <= x) l -> 0 <= Qsum l.
Proof.
  induction 1 as [|x l Hx Hl IH]; simpl; [apply Qle_refl | lra].
Qed.

Lemma on_hand_total_perm lots lots' :
  Permutation lots lots' -> on_hand_total lots == on_hand_total lots'.
Proof. intros Hp. apply Qsum_perm. now apply Permutation_map. Qed.

Lemma allocated_total_perm rows rows' :
  Permutation rows rows' -> allocated_total rows == allocated_total rows'.
Proof. intros Hp. apply Qsum_perm. now apply Permutation_map. Qed.

Lemma allocated_total_zero_rows lots :
  allocated_total (map (fun lot => row_for lot 0 0) lots) == 0.
Proof.
  induction lots as [|lot rest IH]; [reflexivity|].
  unfold allocated_total in *. simpl. rewrite IH. ring.
Qed.

(** In an ascending list every lot after a positive head is positive. *)
Lemma on_hand_total_sorted_tail lot rest :
  Sorted qty_le (lot :: rest) -> 0 <= inv_quantity lot ->
  0 <= on_hand_total rest.
Proof.
  intros Hs Hpos. apply Sorted_StronglySorted in Hs; [|apply qty_le_trans].
  apply StronglySorted_inv in Hs as [_ Hall].
  apply Qsum_nonneg.
  induction Hall as [|x l Hx Hl IH]; simpl; constructor; [|exact IH].
  unfold qty_le in Hx. lra.
Qed.

Lemma within_min (a target on_hand : Q) :
  (target <= on_hand -> - EPS <= a - target <= EPS) ->
  (on_hand <= target -> - EPS <= a - on_hand <= EPS) ->
  Qabs (a - Qmin target on_hand) <= EPS.
Proof.
  intros Hl Hr. apply Qabs_Qle_condition.
  destruct (Q.min_spec target on_hand) as [[Hlt E] | [Hle E]]; rewrite E.
  - apply Hl. lra.
  - now apply Hr.
Qed.

(** The core of conservation: the greedy rule on ascending lots with a
    target above the tolerance. *)
Lemma ideal_rule_conservation lots : forall target,
  Sorted qty_le lots -> EPS < target ->
  Qabs (allocated_total (greedy_rule target lots)
        - Qmin target (on_hand_total lots)) <= EPS.
Proof.
  pose proof EPS_pos as Hpos.
  induction lots as [|lot rest IH]; intros target Hs Htarget.
  - apply within_min; unfold allocated_total, on_hand_total; simpl; lra.
  - rewrite greedy_rule_step.
    assert (Sorted qty_le rest) as Hs' by now inversion Hs.
    destruct (ideal_lot_cases target (inv_quantity lot))
      as [[Hle E] | [(Hrem & Hfit & E) | (Hrem & Hbig & E)]]; rewrite E.
    + lra.
    + change (allocated_total (_ :: ?r))
        with (inv_quantity lot + allocated_total r).
      change (on_hand_total (lot :: rest))
        with (inv_quantity lot + on_hand_total rest).
      destruct (Qlt_le_dec EPS (target - inv_quantity lot)) as [Hmore|Hdone].
      * specialize (IH _ Hs' Hmore). apply Qabs_Qle_condition in IH.
        apply within_min; intros Hcmp;
          destruct (Q.min_spec (target - inv_quantity lot) (on_hand_total rest))
            as [[Hlt E'] | [Hle E']]; rewrite E' in IH; lra.
      * rewrite ideal_rule_exhausted by exact Hdone.
        rewrite allocated_total_zero_rows.
        assert (0 <= on_hand_total rest)
          by (apply (on_hand_total_sorted_tail lot); [exact Hs | lra]).
        apply within_min; intros Hcmp; lra.
    + rewrite ideal_rule_exhausted by lra.
      change (allocated_total (_ :: ?r)) with (target + allocated_total r).
      change (on_hand_total (lot :: rest))
        with (inv_quantity lot + on_hand_total rest).
      rewrite allocated_total_zero_rows.
      assert (0 <= on_hand_total rest)
        by (apply (on_hand_total_sorted_tail lot); [exact Hs | lra]).
      apply within_min; intros Hcmp; lra.
Qed.

Lemma Q_eq_dec (x y : Q) : {x = y} + {x <> y}.
Proof. decide equality; [apply Pos.eq_dec | apply Z.eq_dec]. Qed.

Lemma count_full_step remaining lot rest :
  count_indicator 1 (greedy_rule remaining (lot :: rest))
  = if Qle_bool remaining EPS then 0%nat
    else if Qle_bool (inv_quantity lot) (remaining + EPS) then
           S (count_indicator 1
                (greedy_rule (remaining - inv_quantity lot) rest))
    else 0%nat.
Proof.
  destruct (Qle_bool remaining EPS) eqn:E1.
  - rewrite ideal_rule_exhausted by now apply Qle_bool_iff.
    now apply count_indicator_zero_rows.
  - cbn [greedy_rule exhausted fits minus ideal_arith]. rewrite E1.
    destruct (Qle_bool (inv_quantity lot) (remaining + EPS)); [reflexivity|].
    rewrite ideal_rule_exhausted by (apply Qlt_le_weak, EPS_pos).
    change (count_indicator 1 (map (fun lot => row_for lot 0 0) rest) = 0%nat).
    now apply count_indicator_zero_rows.
Qed.

Lemma count_full_length lots : forall remaining,
  (count_indicator 1 (greedy_rule remaining lots) <= length lots)%nat.
Proof.
  intros remaining. unfold count_indicator.
  rewrite <- (greedy_rule_lots lots remaining) at 2. rewrite length_map.
  apply List.filter_length_le.
Qed.

(** The fully consumed lots are a prefix of the processing order ... *)
Lemma count_full_prefix lots : forall remaining,
  all_full remaining
    (firstn (count_indicator 1 (greedy_rule remaining lots))
            (map inv_quantity lots)).
Proof.
  induction lots as [|lot rest IH]; intros remaining; [exact I|].
  rewrite count_full_step.
  destruct (Qle_bool remaining EPS) eqn:E1; [exact I|].
  destruct (Qle_bool (inv_quantity lot) (remaining + EPS)) eqn:E2; [|exact I].
  cbn [map firstn all_full]. split; [now apply Qle_bool_false|].
  split; [now apply Qle_bool_iff | apply IH].
Qed.

(** ... and the longest one. *)
Lemma all_full_count lots : forall remaining k,
  (k <= length lots)%nat ->
  all_full remaining (firstn k (map inv_quantity lots)) ->
  (k <= count_indicator 1 (greedy_rule remaining lots))%nat.
Proof.
  induction lots as [|lot rest IH]; intros remaining k Hk Hfull.
  - simpl in Hk. lia.
  - destruct k as [|k]; [lia|].
    cbn [map firstn all_full] in Hfull. destruct Hfull as (Hrem & Hfit & Hrest).
    rewrite count_full_step.
    apply Qle_bool_false in Hrem. apply Qle_bool_iff in Hfit.
    rewrite Hrem, Hfit. simpl in Hk. apply le_n_S. apply IH; [lia | exact Hrest].
Qed.

(** [all_full] in terms of the sums of the prefixes. *)
Lemma all_full_sums qs : forall remaining,
  all_full remaining qs <->
  forall i, (i < length qs)%nat ->
    EPS < remaining - Qsum (firstn i qs)
    /\ Qsum (firstn (S i) qs) <= remaining + EPS.
Proof.
  induction qs as [|q qs IH]; intros remaining.
  - split; [intros _ i Hi; simpl in Hi; lia | intros _; exact I].
  - cbn [all_full]. rewrite IH. split.
    + intros (Hrem & Hfit & Hrest) [|i] Hi.
      * simpl. lra.
      * simpl in Hi. destruct (Hrest i) as [H1 H2]; [lia|].
        cbn [firstn Qsum] in *. lra.
    + intros Hall.
      destruct (Hall 0%nat) as [H1 H2]; [simpl; lia|]. simpl in H1, H2.
      split; [lra|]. split; [lra|].
      intros i Hi. destruct (Hall (S i)) as [H3 H4]; [simpl; lia|].
      cbn [firstn Qsum] in *. lra.
Qed.

(** In an ascending list, the first [n] quantities have the smallest sum
    among all choices of [n] of its quantities. *)
Lemma sorted_prefix_sum_min asc : forall s t,
  Sorted Qle asc -> Permutation asc (s ++ t) ->
  Qsum (firstn (length s) asc) <= Qsum s.
Proof.
  induction asc as [|x asc IH]; intros s t Hs Hperm.
  - apply Permutation_nil in Hperm. apply app_eq_nil in Hperm as [-> _].
    apply Qle_refl.
  - destruct s as [|y s]; [apply Qle_refl|].
    assert (Sorted Qle asc) as Hs' by now inversion Hs.
    assert (Forall (Qle x) asc) as Hmin.
    { apply Sorted_StronglySorted in Hs; [|exact Qle_trans].
      now apply StronglySorted_inv in Hs. }
    cbn [length firstn Qsum].
    destruct (in_dec Q_eq_dec x (y :: s)) as [Hin|Hout].
    + apply in_split in Hin as (s1 & s2 & Hsplit).
      rewrite Hsplit, <- app_assoc in Hperm. cbn [app] in Hperm.
      apply Permutation_cons_app_inv in Hperm. rewrite app_assoc in Hperm.
      apply IH in Hperm; [|exact Hs'].
      assert (length s = length (s1 ++ s2)) as Hlen.
      { apply (f_equal (@length Q)) in Hsplit.
        rewrite !length_app in *. simpl in Hsplit. lia. }
      rewrite Hlen.
      change (y + Qsum s) with (Qsum (y :: s)). rewrite Hsplit.
      pose proof (Qsum_app s1 (x :: s2)) as E1.
      pose proof (Qsum_app s1 s2) as E2. cbn [Qsum] in E1. lra.
    + assert (In x ((y :: s) ++ t)) as Hin.
      { eapply Permutation_in; [exact Hperm | now left]. }
      apply in_app_or in Hin as [Hin|Hin]; [contradiction|].
      apply in_split in Hin as (t1 & t2 & ->).
      rewrite app_assoc in Hperm. apply Permutation_cons_app_inv in Hperm.
      rewrite <- app_assoc in Hperm. cbn [app] in Hperm.
      assert (x <= y) as Hxy.
      { rewrite List.Forall_forall in Hmin. apply Hmin.
        eapply Permutation_in; [symmetry; exact Hperm | now left]. }
      assert (Permutation asc (s ++ y :: t1 ++ t2)) as Hperm'.
      { rewrite Hperm. apply Permutation_middle. }
      apply IH in Hperm'; [|exact Hs']. lra.
Qed.

Lemma sorted_firstn_sum_min asc other i :
  Sorted Qle asc -> Permutation asc other -> (i <= length other)%nat ->
  Qsum (firstn i asc) <= Qsum (firstn i other).
Proof.
  intros Hs Hperm Hi.
  rewrite <- (firstn_skipn i other) in Hperm.
  apply sorted_prefix_sum_min in Hperm; [|exact Hs].
  rewrite length_firstn in Hperm. now rewrite Nat.min_l in Hperm by exact Hi.
Qed.

Lemma sorted_quantities lots :
  Sorted qty_le lots -> Sorted Qle (map inv_quantity lots).
Proof.
  induction 1 as [|lot rest Hs IH Hhd]; simpl; constructor; [exact IH|].
  destruct Hhd; simpl; constructor. assumption.
Qed.

(** The ascending order closes at least as many lots as any other order of
    the same lots. *)
Lemma smallest_first_maximal target asc other :
  Sorted qty_le asc -> Permutation asc other ->
  (count_indicator 1 (greedy_rule target other)
   <= count_indicator 1 (greedy_rule target asc))%nat.
Proof.
  intros Hs Hperm.
  set (k := count_indicator 1 (greedy_rule target other)).
  pose proof (count_full_length other target) as Hk. fold k in Hk.
  pose proof (count_full_prefix other target) as Hfull. fold k in Hfull.
  assert (length asc = length other) as Hlen by now apply Permutation_length.
  apply all_full_count; [lia|].
  rewrite all_full_sums in Hfull. rewrite all_full_sums.
  rewrite !length_firstn, !length_map in *.
  intros i Hi. destruct (Hfull i) as [H1 H2]; [lia|].
  rewrite !firstn_firstn in *.
  rewrite !Nat.min_l in * by lia.
  pose proof (sorted_quantities _ Hs) as Hsq.
  pose proof (Permutation_map inv_quantity Hperm) as Hpq.
  pose proof (sorted_firstn_sum_min _ _ i Hsq Hpq) as Hi1.
  pose proof (sorted_firstn_sum_min _ _ (S i) Hsq Hpq) as Hi2.
  rewrite length_map in Hi1, Hi2.
  specialize (Hi1 ltac:(lia)). specialize (Hi2 ltac:(lia)). lra.
Qed.

Lemma ideal_rule_all_full lots : forall target,
  Sorted qty_le lots -> EPS < target ->
  on_hand_total lots + EPS < target ->
  greedy_rule target lots
  = map (fun lot => row_for lot 1 (inv_quantity lot)) lots.
Proof.
  pose proof EPS_pos as Hpos.
  induction lots as [|lot rest IH]; intros target Hs Htarget Hmore;
    [reflexivity|].
  assert (Sorted qty_le rest) as Hs' by now inversion Hs.
  change (on_hand_total (lot :: rest))
    with (inv_quantity lot + on_hand_total rest) in Hmore.
  assert (inv_quantity lot <= 0 \/ 0 <= on_hand_total rest) as Hcase.
  { destruct (Qlt_le_dec 0 (inv_quantity lot)) as [Hq|Hq]; [right | now left].
    apply (on_hand_total_sorted_tail lot); [exact Hs | lra]. }
  rewrite greedy_rule_step, ideal_lot_full by (destruct Hcase; lra).
  cbn [map]. f_equal. apply IH; [exact Hs' | destruct Hcase; lra | lra].
Qed.

Lemma ideal_rule_non_positive lots : forall target,
  Sorted qty_le lots -> EPS < target ->
  Forall (fun row =>
            res_original_quantity row <= 0 ->
            res_indicator row = 1%nat
            /\ res_allocated_quantity row = res_original_quantity row)
         (greedy_rule target lots).
Proof.
  pose proof EPS_pos as Hpos.
  induction lots as [|lot rest IH]; intros target Hs Htarget; [constructor|].
  assert (Sorted qty_le rest) as Hs' by now inversion Hs.
  destruct (Qlt_le_dec 0 (inv_quantity lot)) as [Hq|Hq].
  - (* a positive lot: nothing from here on is zero or negative *)
    apply Sorted_StronglySorted in Hs; [|apply qty_le_trans].
    apply StronglySorted_inv in Hs as [_ Hall].
    apply List.Forall_forall. intros row Hin Hle. exfalso.
    apply greedy_rule_In in Hin. destruct Hin as [E|Hin].
    + rewrite E in Hq. simpl in Hq. lra.
    + rewrite List.Forall_forall in Hall. apply Hall in Hin.
      unfold qty_le in Hin. simpl in Hin. lra.
  - rewrite greedy_rule_step, ideal_lot_full by lra.
    constructor; [simpl; auto | apply IH; [exact Hs' | lra]].
Qed.

End Ideal.

(** ** From the exact runs of the program to the exact rule *)

Lemma same_decision_refl row : same_decision row row.
Proof. unfold same_decision. repeat split; reflexivity. Qed.

Lemma same_decision_zero_rows lots :
  Forall2 same_decision (map (fun lot => row_for lot 0 0) lots)
                        (map (fun lot => row_for lot 0 0) lots).
Proof.
  induction lots as [|lot rest IH]; simpl; constructor;
    [apply same_decision_refl | exact IH].
Qed.

(** A run of the loop that passes [exact_trace] decides every lot as the
    exact rule does. *)
Lemma exact_trace_ideal `{Arithmetic} lots : forall remaining (q : Q),
  exact_trace remaining lots = true -> value remaining == q ->
  Forall2 same_decision (greedy_rule remaining lots)
                        (@greedy_rule ideal_arith q lots).
Proof.
  induction lots as [|lot rest IH]; intros remaining q Hex Hq; [constructor|].
  apply exact_trace_cons in Hex as [Hfirst Hex].
  rewrite greedy_rule_step, (@greedy_rule_step ideal_arith).
  destruct (decide_lot_cases remaining (inv_quantity lot))
    as [[Hle E] | [(Hrem & Hfit & E) | (Hrem & Hbig & E)]]; rewrite E.
  - rewrite Hle in Hfirst. symmetry in Hfirst.
    apply Qle_bool_iff in Hfirst.
    rewrite ideal_lot_exhausted by lra.
    rewrite greedy_rule_exhausted by exact Hle.
    rewrite ideal_rule_exhausted by lra.
    apply (same_decision_zero_rows (lot :: rest)).
  - destruct (Hex Hrem) as [Hsecond Hnext].
    destruct (Hnext Hfit) as [Hsub Hrest].
    rewrite Hrem in Hfirst. rewrite Hfit in Hsecond.
    symmetry in Hfirst, Hsecond.
    apply Qle_bool_false in Hfirst. apply Qle_bool_iff in Hsecond.
    rewrite ideal_lot_full by lra.
    constructor; [apply same_decision_refl|].
    apply IH; [exact Hrest | lra].
  - destruct (Hex Hrem) as [Hsecond _].
    rewrite Hrem in Hfirst. rewrite Hbig in Hsecond.
    symmetry in Hfirst, Hsecond.
    apply Qle_bool_false in Hfirst. apply Qle_bool_false in Hsecond.
    rewrite ideal_lot_partial by lra.
    rewrite greedy_rule_exhausted by apply exhausted_zero.
    rewrite ideal_rule_exhausted by (apply Qlt_le_weak, EPS_pos).
    constructor; [|apply same_decision_zero_rows].
    unfold same_decision. simpl.
    split; [reflexivity|]. split; [exact Hq | reflexivity].
Qed.

Lemma same_decision_count k rows1 rows2 :
  Forall2 same_decision rows1 rows2 ->
  count_indicator k rows1 = count_indicator k rows2.
Proof.
  induction 1 as [|r1 r2 rows1 rows2 (Hind & _ & _) _ IH]; [reflexivity|].
  unfold count_indicator in *. simpl. rewrite Hind.
  destruct (res_indicator r2 =? k)%nat; simpl; now rewrite IH.
Qed.

Lemma same_decision_total rows1 rows2 :
  Forall2 same_decision rows1 rows2 ->
  allocated_total rows1 == allocated_total rows2.
Proof.
  induction 1 as [|r1 r2 rows1 rows2 (_ & Halloc & _) _ IH]; [reflexivity|].
  unfold allocated_total in *. simpl. now rewrite Halloc, IH.
Qed.

Lemma same_decision_In rows1 rows2 row :
  Forall2 same_decision rows1 rows2 -> In row rows1 ->
  exists row', In row' rows2 /\ same_decision row row'.
Proof.
  induction 1 as [|r1 r2 rows1 rows2 Hsame _ IH]; [easy|].
  intros [<-|Hin].
  - exists r2. split; [now left | exact Hsame].
  - destruct (IH Hin) as (row' & Hin' & Hrow).
    exists row'. split; [now right | exact Hrow].
Qed.

(** ** Conservation *)

Lemma eligible_rows_item_rows `{Arithmetic} `{SortValues} target item_inv :
  eligible_rows (item_rows target item_inv)
  = greedy_rule (start target) (sort_values (non_prd_rows_of item_inv)).
Proof.
  unfold eligible_rows, item_rows. rewrite List.filter_app.
  rewrite filter_all, filter_nil_all; [apply app_nil_r | |].
  - intros row Hin. apply in_map_iff in Hin as (lot & <- & Hlot).
    unfold prd_rows_of in Hlot. apply filter_In in Hlot as [_ Hprd].
    simpl. now rewrite Hprd.
  - intros row Hin. apply greedy_rule_In in Hin.
    eapply Permutation_in in Hin; [|symmetry; apply sort_values_perm].
    unfold non_prd_rows_of in Hin. now apply filter_In in Hin as [_ Hprd].
Qed.

(** The eligible rows of an item in the result of a run are, rearranged, the
    rows the allocation loop built from the ascending eligible lots. *)
Lemma run_eligible_rows `{Arithmetic} `{SortValues} df_adj df_inv df_result
    item req item_inv :
  run df_adj df_inv = Result df_result ->
  first_request item df_adj = Some req ->
  get_group df_inv item = Some item_inv ->
  Permutation (eligible_rows (rows_of_item item df_result))
    (greedy_rule (start (adj_adjustment req))
       (sort_values (non_prd_rows_of item_inv))).
Proof.
  intros Hrun Hfirst Hgroup.
  pose proof (run_rows_of_item _ _ _ item Hrun) as Hperm.
  rewrite Hfirst in Hperm. unfold request_rows in Hperm.
  apply first_request_Some in Hfirst as [_ E]. rewrite E, Hgroup in Hperm.
  rewrite <- eligible_rows_item_rows.
  unfold eligible_rows. now apply Permutation_filter_bool.
Qed.

Lemma run_allocated_total `{Arithmetic} `{SortValues} df_adj df_inv df_result
    item req item_inv :
  run df_adj df_inv = Result df_result ->
  first_request item df_adj = Some req ->
  get_group df_inv item = Some item_inv ->
  allocated_total (eligible_rows (rows_of_item item df_result))
  == allocated_total
       (greedy_rule (start (adj_adjustment req))
          (sort_values (non_prd_rows_of item_inv))).
Proof.
  intros Hrun Hfirst Hgroup. apply allocated_total_perm.
  exact (run_eligible_rows _ _ _ _ _ _ Hrun Hfirst Hgroup).
Qed.

(** An exact run of the loop decides as the exact rule started from the
    target. *)
Lemma exact_run_ideal `{Arithmetic} target lots :
  exact_run target lots = true ->
  Forall2 same_decision (greedy_rule (start target) lots)
                        (@greedy_rule ideal_arith target lots).
Proof.
  unfold exact_run. intros Hexact.
  apply andb_prop in Hexact as [Hstart Htrace]. apply Qeq_bool_iff in Hstart.
  now apply exact_trace_ideal.
Qed.

(** C1 (amended). Conservation: for an item with a request and an inventory
    group, a target of zero or less allocates nothing: the allocated
    quantities of the item's eligible rows sum to 0, not to min(target,
    eligible on-hand sum).  When the arithmetic of the loop is exact on the
    item's eligible lots (the target is held exactly, every tolerance test
    comes out as the comparison of the values, every subtraction gives the
    difference of the values), a target of at most 1e-6 allocates nothing; a
    target above 1e-6 gives conservation as stated, the sum equals
    min(target, eligible on-hand sum) within 1e-6; and when the target is
    above 1e-6 or the eligible on-hand sum is not negative the sum equals
    min(max(target, 0), eligible on-hand sum) within 1e-6. *)
Theorem conservation_clamped `{Arithmetic} `{SortValues} df_adj df_inv
    df_result item req item_inv :
  run df_adj df_inv = Result df_result ->
  first_request item df_adj = Some req ->
  get_group df_inv item = Some item_inv ->
  let rows := rows_of_item item df_result in
  (adj_adjustment req <= 0 -> allocated_total (eligible_rows rows) == 0) /\
  (exact_run (adj_adjustment req) (sort_values (non_prd_rows_of item_inv))
   = true ->
   (adj_adjustment req <= EPS ->
    allocated_total (eligible_rows rows) == 0) /\
   (EPS < adj_adjustment req ->
    conservation (adj_adjustment req) item_inv rows) /\
   (EPS < adj_adjustment req
    \/ 0 <= on_hand_total (non_prd_rows_of item_inv) ->
    clamped_conservation (adj_adjustment req) item_inv rows)).
Proof.
  intros Hrun Hfirst Hgroup rows.
  pose proof EPS_pos as Hpos.
  pose proof (run_allocated_total _ _ _ _ _ _ Hrun Hfirst Hgroup) as Htotal.
  fold rows in Htotal.
  set (target := adj_adjustment req) in *.
  set (ordered := sort_values (non_prd_rows_of item_inv)) in *.
  split.
  { intros Hneg. rewrite Htotal.
    rewrite greedy_rule_exhausted by now apply exhausted_start.
    apply allocated_total_zero_rows. }
  intros Hexact.
  rewrite (same_decision_total _ _ (exact_run_ideal _ _ Hexact)) in Htotal.
  assert (on_hand_total ordered == on_hand_total (non_prd_rows_of item_inv))
    as Hhand by (symmetry; apply on_hand_total_perm, sort_values_perm).
  assert (EPS < target -> conservation target item_inv rows) as Hcons.
  { intros Hbig. unfold conservation.
    pose proof (ideal_rule_conservation ordered target
                  (sort_values_sorted _) Hbig) as Hg.
    apply Qabs_Qle_condition in Hg. apply Qabs_Qle_condition.
    destruct (Q.min_spec target (on_hand_total ordered))
      as [[? E1] | [? E1]]; rewrite E1 in Hg;
      destruct (Q.min_spec target (on_hand_total (non_prd_rows_of item_inv)))
        as [[? E2] | [? E2]]; rewrite E2; lra. }
  assert (target <= EPS -> allocated_total (eligible_rows rows) == 0) as Hzero.
  { intros Hsmall. rewrite Htotal, ideal_rule_exhausted by exact Hsmall.
    apply allocated_total_zero_rows. }
  split; [exact Hzero|]. split; [exact Hcons|]. intros Hcond.
  unfold clamped_conservation. apply Qabs_Qle_condition.
  destruct (Qlt_le_dec EPS target) as [Hbig|Hsmall].
  - specialize (Hcons Hbig). unfold conservation in Hcons.
    apply Qabs_Qle_condition in Hcons.
    destruct (Q.max_spec target 0) as [[? E0] | [? E0]]; [lra|].
    destruct (Q.min_spec target (on_hand_total (non_prd_rows_of item_inv)))
      as [[? E1] | [? E1]]; rewrite E1 in Hcons;
      destruct (Q.min_spec (Qmax target 0)
                  (on_hand_total (non_prd_rows_of item_inv)))
        as [[? E2] | [? E2]]; rewrite E2; lra.
  - destruct Hcond as [Hbig|Hnonneg]; [lra|].
    rewrite (Hzero Hsmall).
    destruct (Q.max_spec target 0) as [[? E0] | [? E0]];
      destruct (Q.min_spec (Qmax target 0)
                  (on_hand_total (non_prd_rows_of item_inv)))
        as [[? E2] | [? E2]]; rewrite E2; lra.
Qed.

Lemma conservation_clamped_witness :
  conservation 12
    [mkLot "A2" None None 10; mkLot "A2" None None 5]
    (rows_of_item "A2"
       [mkRow "A2" None None 10 2 7; mkRow "A2" None None 5 1 5]).
Proof.
  destruct (@conservation_clamped (python_arith PythonInt true) keep_ties_sort
              [mkAdj "A2" 12]
              [mkLot "A2" None None 10; mkLot "A2" None None 5]
              [mkRow "A2" None None 10 2 7; mkRow "A2" None None 5 1 5]
              "A2" (mkAdj "A2" 12)
              [mkLot "A2" None None 10; mkLot "A2" None None 5]
              eq_refl eq_refl eq_refl) as [_ Hexact].
  destruct (Hexact eq_refl) as (_ & Hcons & _).
  apply Hcons. reflexivity.
Defined.

(** A negative target: nothing is allocated, while min(target, on-hand sum)
    is the negative target. *)
Lemma conservation_counterexample :
  @run (python_arith PythonInt true) keep_ties_sort
    [mkAdj "A1" (-5)] [mkLot "A1" None None 5]
  = Result [mkRow "A1" None None 5 0 0] /\
  first_request "A1" [mkAdj "A1" (-5)] = Some (mkAdj "A1" (-5)) /\
  get_group [mkLot "A1" None None 5] "A1" = Some [mkLot "A1" None None 5] /\
  ~ conservation (-5) [mkLot "A1" None None 5]
      (rows_of_item "A1" [mkRow "A1" None None 5 0 0]).
Proof.
  split; [reflexivity|]. split; [reflexivity|]. split; [reflexivity|].
  unfold conservation. intros Hle. vm_compute in Hle. now apply Hle.
Qed.

(** With a target of 1e16 and lots of 1, 1 and 2e16 in float columns the two
    subtractions of 1 leave the remaining target at 1e16, which the last lot
    then receives: the allocated quantities sum to 1e16 + 2.  The run does
    not pass [exact_run], and conservation fails. *)
Lemma conservation_rounding_example :
  @run (python_arith PythonFloat false) keep_ties_sort
    [mkAdj "A1" 10000000000000000]
    [mkLot "A1" None None 1; mkLot "A1" None None 1;
     mkLot "A1" None None 20000000000000000]
  = Result [mkRow "A1" None None 20000000000000000 2 10000000000000000;
            mkRow "A1" None None 1 1 1; mkRow "A1" None None 1 1 1] /\
  @exact_run (python_arith PythonFloat false) 10000000000000000
    [mkLot "A1" None None 1; mkLot "A1" None None 1;
     mkLot "A1" None None 20000000000000000] = false /\
  ~ conservation 10000000000000000
      [mkLot "A1" None None 1; mkLot "A1" None None 1;
       mkLot "A1" None None 20000000000000000]
      [mkRow "A1" None None 20000000000000000 2 10000000000000000;
       mkRow "A1" None None 1 1 1; mkRow "A1" None None 1 1 1].
Proof.
  split; [reflexivity|]. split; [reflexivity|].
  unfold conservation. intros Hle. vm_compute in Hle. now apply Hle.
Qed.

(** ** Lots of negative quantity *)

(** C10 (amended). A negative lot met with a remaining target that the test
    [remaining_target <= 0.000001] finds above the tolerance is taken in
    full: indicator 1, allocated the negative quantity, and the remaining
    target handed to the next lots is the difference [remaining_target -
    qty] as the program computes it.  When both are ints the difference is
    exact, for Python ints always and for a [numpy.int64] as long as it
    stays below 2^63: the remaining target is larger by the magnitude of
    the quantity.  (Otherwise the difference is rounded to binary64, or
    taken modulo 2^64, and the remaining target need not grow.) *)
Theorem negative_lot_fully_consumed (adj : scalar) (inv_int : bool)
    (remaining : pynum) (results : list ResultRow) (lot : InventoryLot) :
  inv_quantity lot < 0 ->
  py_exhausted remaining = false ->
  ~ py_nan remaining ->
  @allocate_row (python_arith adj inv_int) (remaining, results) lot
  = (py_minus inv_int remaining (inv_quantity lot),
     results ++ [row_for lot 1 (inv_quantity lot)]) /\
  (forall z,
     remaining = PyInt z
     \/ (remaining = NpInt z
         /\ (z - Qnum (inv_quantity lot) < 9223372036854775808)%Z) ->
     inv_int = true ->
     Qden (inv_quantity lot) = 1%positive ->
     py_value (py_minus inv_int remaining (inv_quantity lot))
     == py_value remaining + Qabs (inv_quantity lot) /\
     py_value remaining
     < py_value (py_minus inv_int remaining (inv_quantity lot))).
Proof.
  intros Hneg Hrem Hnan. split.
  - unfold allocate_row, decide_lot, result_of, row_for.
    cbn [exhausted fits minus value zero python_arith].
    rewrite Hrem, py_fits_non_positive by (try lra; assumption).
    reflexivity.
  - intros z Hz -> Hden.
    destruct (inv_quantity lot) as [n d]. simpl in Hden. subst d.
    rewrite Qabs_neg by lra.
    assert (n < 0)%Z as Hn by (unfold Qlt in Hneg; simpl in Hneg; lia).
    destruct Hz as [-> | [-> Hsmall]]; cbn [py_minus py_value Qnum].
    + unfold Qlt, Qeq, Qplus, Qopp. simpl. split; lia.
    + simpl in Hrem, Hsmall. apply Z.leb_gt in Hrem.
      unfold wrap64. rewrite Z.mod_small by lia.
      unfold Qlt, Qeq, Qplus, Qopp. simpl. split; lia.
Qed.

Lemma negative_lot_fully_consumed_witness :
  @allocate_row (python_arith PythonInt true) (PyInt 5, [])
    (mkLot "A1" None None (-3))
  = (PyInt 8, [mkRow "A1" None None (-3) 1 (-3)]).
Proof.
  apply (proj1 (negative_lot_fully_consumed PythonInt true (PyInt 5) []
                  (mkLot "A1" None None (-3))
                  eq_refl eq_refl
                  ltac:(intros [H|H]; discriminate))).
Defined.

(** Target 1e16 in a float column, a lot of -1: the lot is taken in full and
    the remaining target is still 1e16, not 1e16 + 1; the next lot, of
    1e16 + 2, is allocated 1e16.  Target 5 in an adjustment table whose
    columns are all int64, a lot of -9223372036854775807: the lot is taken
    in full and the remaining target wraps to -9223372036854775804; the next
    lot, of 10, is left untouched. *)
Lemma negative_lot_fully_consumed_counterexample :
  @run (python_arith PythonFloat false) keep_ties_sort
    [mkAdj "A1" 10000000000000000]
    [mkLot "A1" None None (-1); mkLot "A1" None None 10000000000000002]
  = Result [mkRow "A1" None None 10000000000000002 2 10000000000000000;
            mkRow "A1" None None (-1) 1 (-1)] /\
  @remaining_after (python_arith PythonFloat false)
    (@start (python_arith PythonFloat false) 10000000000000000)
    [mkLot "A1" None None (-1)]
  = @start (python_arith PythonFloat false) 10000000000000000 /\
  @value (python_arith PythonFloat false)
    (@start (python_arith PythonFloat false) 10000000000000000)
  = 10000000000000000 /\
  ~ (@value (python_arith PythonFloat false)
       (@start (python_arith PythonFloat false) 10000000000000000)
     < @value (python_arith PythonFloat false)
         (@remaining_after (python_arith PythonFloat false)
            (@start (python_arith PythonFloat false) 10000000000000000)
            [mkLot "A1" None None (-1)])) /\
  @run (python_arith NumpyInt64 true) keep_ties_sort
    [mkAdj "1" 5]
    [mkLot "1" None None 10; mkLot "1" None None (-9223372036854775807)]
  = Result [mkRow "1" None None (-9223372036854775807) 1
              (-9223372036854775807);
            mkRow "1" None None 10 0 0] /\
  @remaining_after (python_arith NumpyInt64 true)
    (@start (python_arith NumpyInt64 true) 5)
    [mkLot "1" None None (-9223372036854775807)]
  = NpInt (-9223372036854775804).
Proof.
  split; [reflexivity|]. split; [reflexivity|]. split; [reflexivity|].
  split; [|split; reflexivity].
  intros Hlt. vm_compute in Hlt. discriminate.
Qed.

(** ** Smallest first and the number of fully consumed lots *)



(** X10. With exact arithmetic smallest first is the best order: whatever
    order the same lots are put in, if the loop runs on it and on the
    ascending order of the program's sort without rounding, it yields no
    more rows of indicator 1 on it than on the ascending order. *)
Theorem smallest_first_beats_any_order `{Arithmetic} `{SortValues}
    (target : Q) (lots reordered : list InventoryLot) :
  Permutation lots reordered ->
  exact_run target reordered = true ->
  exact_run target (sort_values lots) = true ->
  (count_indicator 1
     (snd (fold_left allocate_row reordered (start target, [])))
   <= count_indicator 1
        (snd (fold_left allocate_row (sort_values lots)
                (start target, []))))%nat.
Proof.
  intros Hperm Hother Hasc. rewrite !fold_allocate_row. cbn [app].
  rewrite (same_decision_count 1 _ _ (exact_run_ideal _ _ Hother)).
  rewrite (same_decision_count 1 _ _ (exact_run_ideal _ _ Hasc)).
  apply smallest_first_maximal; [apply sort_values_sorted|].
  rewrite <- Hperm. symmetry. apply sort_values_perm.
Qed.

Lemma smallest_first_beats_any_order_witness :
  (count_indicator 1
     (snd (fold_left (@allocate_row (python_arith PythonInt true))
             [mkLot "A1" None None 10; mkLot "A1" None None 20;
              mkLot "A1" None None 5]
             (@start (python_arith PythonInt true) 15, [])))
   <= count_indicator 1
        (snd (fold_left (@allocate_row (python_arith PythonInt true))
                (@sort_values keep_ties_sort
                   [mkLot "A1" None None 20; mkLot "A1" None None 10;
                    mkLot "A1" None None 5])
                (@start (python_arith PythonInt true) 15, []))))%nat.
Proof.
  apply (@smallest_first_beats_any_order (python_arith PythonInt true)
           keep_ties_sort 15
           [mkLot "A1" None None 20; mkLot "A1" None None 10;
            mkLot "A1" None None 5]).
  - apply perm_swap.
  - reflexivity.
  - reflexivity.
Defined.

(** The eligible rows of an item in the result of an exact run, each with
    the row the exact rule gives the same lot. *)
Lemma run_eligible_row_ideal `{Arithmetic} `{SortValues} df_adj df_inv
    df_result item req item_inv row :
  run df_adj df_inv = Result df_result ->
  first_request item df_adj = Some req ->
  get_group df_inv item = Some item_inv ->
  exact_run (adj_adjustment req) (sort_values (non_prd_rows_of item_inv))
  = true ->
  In row df_result ->
  res_item_number row = item ->
  is_prd (res_location row) = false ->
  row_shape row /\
  exists row',
    In row' (@greedy_rule ideal_arith (adj_adjustment req)
               (sort_values (non_prd_rows_of item_inv)))
    /\ same_decision row row'.
Proof.
  intros Hrun Hfirst Hgroup Hexact Hin Hitem Hloc.
  assert (In row (eligible_rows (rows_of_item item df_result))) as Hrow.
  { apply filter_In. split; [|now rewrite Hloc].
    apply filter_In. split; [exact Hin | now apply String.eqb_eq]. }
  eapply Permutation_in in Hrow;
    [|exact (run_eligible_rows _ _ _ _ _ _ Hrun Hfirst Hgroup)].
  split; [now apply greedy_rule_shape in Hrow|].
  exact (same_decision_In _ _ _ (exact_run_ideal _ _ Hexact) Hrow).
Qed.

Lemma full_row_allocation row :
  row_shape row -> res_indicator row = 1%nat ->
  res_allocated_quantity row = res_original_quantity row.
Proof.
  intros [[E _] | [[_ E] | [E _]]] Hind; [congruence | exact E | congruence].
Qed.

(** X6. When the target of an item exceeds 1e-6 and exceeds the sum of its
    eligible on-hand quantities by more than 1e-6, and the arithmetic of
    the loop is exact on the item's eligible lots, every eligible lot of the
    item comes out fully consumed: indicator 1 with its whole quantity
    allocated, and no partial row. *)
Theorem target_above_inventory_consumes_all `{Arithmetic} `{SortValues}
    df_adj df_inv df_result item req item_inv row :
  run df_adj df_inv = Result df_result ->
  first_request item df_adj = Some req ->
  get_group df_inv item = Some item_inv ->
  exact_run (adj_adjustment req) (sort_values (non_prd_rows_of item_inv))
  = true ->
  EPS < adj_adjustment req ->
  on_hand_total (non_prd_rows_of item_inv) + EPS < adj_adjustment req ->
  In row df_result ->
  res_item_number row = item ->
  is_prd (res_location row) = false ->
  res_indicator row = 1%nat
  /\ res_allocated_quantity row = res_original_quantity row.
Proof.
  intros Hrun Hfirst Hgroup Hexact Htarget Hmore Hin Hitem Hloc.
  destruct (run_eligible_row_ideal _ _ _ _ _ _ _ Hrun Hfirst Hgroup Hexact
              Hin Hitem Hloc) as (Hshape & row' & Hin' & Hind & _).
  rewrite ideal_rule_all_full in Hin'.
  - apply in_map_iff in Hin' as (lot & <- & _). simpl in Hind.
    split; [exact Hind | now apply full_row_allocation].
  - apply sort_values_sorted.
  - exact Htarget.
  - now rewrite <- (on_hand_total_perm _ _ (sort_values_perm _)).
Qed.

Lemma target_above_inventory_consumes_all_witness :
  res_indicator (mkRow "A1" None None 10 1 10) = 1%nat
  /\ res_allocated_quantity (mkRow "A1" None None 10 1 10)
     = res_original_quantity (mkRow "A1" None None 10 1 10).
Proof.
  apply (@target_above_inventory_consumes_all (python_arith PythonInt true)
           keep_ties_sort
           [mkAdj "A1" 40]
           [mkLot "A1" None None 10; mkLot "A1" None None 5]
           [mkRow "A1" None None 5 1 5; mkRow "A1" None None 10 1 10]
           "A1" (mkAdj "A1" 40)
           [mkLot "A1" None None 10; mkLot "A1" None None 5]);
    try reflexivity.
  simpl. tauto.
Defined.

(** X9. When the target of an item is above 1e-6 and the arithmetic of the
    loop is exact on the item's eligible lots, every eligible lot of the
    item whose on-hand quantity is zero or negative comes out as fully
    consumed: indicator 1, allocated its own quantity. *)
Theorem non_positive_lots_marked_consumed `{Arithmetic} `{SortValues}
    df_adj df_inv df_result item req item_inv row :
  run df_adj df_inv = Result df_result ->
  first_request item df_adj = Some req ->
  get_group df_inv item = Some item_inv ->
  exact_run (adj_adjustment req) (sort_values (non_prd_rows_of item_inv))
  = true ->
  EPS < adj_adjustment req ->
  In row df_result ->
  res_item_number row = item ->
  is_prd (res_location row) = false ->
  res_original_quantity row <= 0 ->
  res_indicator row = 1%nat
  /\ res_allocated_quantity row = res_original_quantity row.
Proof.
  intros Hrun Hfirst Hgroup Hexact Htarget Hin Hitem Hloc Hqty.
  destruct (run_eligible_row_ideal _ _ _ _ _ _ _ Hrun Hfirst Hgroup Hexact
              Hin Hitem Hloc) as (Hshape & row' & Hin' & Hind & _ & Horig).
  pose proof (ideal_rule_non_positive
                (sort_values (non_prd_rows_of item_inv)) (adj_adjustment req)
                (sort_values_sorted _) Htarget) as Hall.
  rewrite List.Forall_forall in Hall.
  destruct (Hall row' Hin') as [Hfull _]; [lra|].
  rewrite <- Hind in Hfull.
  split; [exact Hfull | now apply full_row_allocation].
Qed.

Lemma non_positive_lots_marked_consumed_witness :
  res_indicator (mkRow "A1" None None 0 1 0) = 1%nat
  /\ res_allocated_quantity (mkRow "A1" None None 0 1 0)
     = res_original_quantity (mkRow "A1" None None 0 1 0).
Proof.
  apply (@non_positive_lots_marked_consumed (python_arith PythonInt true)
           keep_ties_sort
           [mkAdj "A1" 4]
           [mkLot "A1" None None 10; mkLot "A1" None None 0]
           [mkRow "A1" None None 10 2 4; mkRow "A1" None None 0 1 0]
           "A1" (mkAdj "A1" 4)
           [mkLot "A1" None None 10; mkLot "A1" None None 0]);
    try reflexivity.
  - simpl. tauto.
  - simpl. lra.
Defined.
